(** * rebel-stream: segmenter, triplet parser and streaming pipeline

    A shallow embedding of [src/base_extractor.py] and
    [src/streaming_extractor.py], with the properties of the
    specification stated and settled against it. *)

From Stdlib Require Import String Ascii List NArith ZArith Lia Bool Arith.
Import ListNotations.

Set Implicit Arguments.

(** ** Python strings

    A Python [str] is a sequence of Unicode code points.  Code points are
    kept as [N], so that the whitespace class used by [str.split()] and
    [str.strip()] is the one of CPython and not only its ASCII part. *)

Module PyStr.

Definition char := N.
Definition str := list char.

(** An ASCII literal as a [str]. *)
Definition u (s : string) : str := map N_of_ascii (list_ascii_of_string s).

Definition ch (c : ascii) : char := N_of_ascii c.

Definition SPACE : char := 32%N.

(** [Py_UNICODE_ISSPACE]: the characters [split()] and [strip()] treat as
    whitespace. *)
Definition isspace (c : char) : bool :=
  ((9 <=? c) && (c <=? 13) || (28 <=? c) && (c <=? 32)
   || (c =? 133) || (c =? 160) || (c =? 5760)
   || (8192 <=? c) && (c <=? 8202)
   || (c =? 8232) || (c =? 8233) || (c =? 8239) || (c =? 8287)
   || (c =? 12288))%N.

Fixpoint eqb (a b : str) : bool :=
  match a, b with
  | [], [] => true
  | x :: a', y :: b' => N.eqb x y && eqb a' b'
  | _, _ => false
  end.

(** [bool(s)]: a string is truthy when it is not empty. *)
Definition truthy (s : str) : bool :=
  match s with [] => false | _ :: _ => true end.

(** [s.startswith(p)] *)
Fixpoint startswith (s p : str) : bool :=
  match p, s with
  | [], _ => true
  | y :: p', x :: s' => N.eqb x y && startswith s' p'
  | _ :: _, [] => false
  end.

(** [s.endswith(p)] *)
Definition endswith (s p : str) : bool := startswith (rev s) (rev p).

(** [s.lstrip()], [s.rstrip()], [s.strip()] *)
Fixpoint lstrip (s : str) : str :=
  match s with
  | [] => []
  | c :: s' => if isspace c then lstrip s' else s
  end.

Definition rstrip (s : str) : str := rev (lstrip (rev s)).

Definition strip (s : str) : str := rstrip (lstrip s).

(** [s[1:-1]]: slicing never fails; a string of length two or less gives
    the empty string. *)
Definition slice_1_m1 (s : str) : str := removelast (tl s).

(** [s.replace(old, new)] for a non-empty [old]: occurrences are found
    left to right and do not overlap.  [skip] counts the characters of a
    found occurrence that are still to be passed over. *)
Fixpoint replace_from (old new s : str) (skip : nat) : str :=
  match s with
  | [] => []
  | c :: s' =>
      match skip with
      | S k => replace_from old new s' k
      | O => if startswith s old
             then new ++ replace_from old new s' (length old - 1)
             else c :: replace_from old new s' 0
      end
  end.

Definition replace (s old new : str) : str := replace_from old new s 0.

(** [fields s] cuts [s] at every whitespace character, keeping the empty
    pieces; [s.split()] is what is left when the empty pieces are
    removed. *)
Fixpoint fields (s : str) : list str :=
  match s with
  | [] => [[]]
  | c :: s' =>
      if isspace c then [] :: fields s'
      else match fields s' with
           | w :: ws => (c :: w) :: ws
           | [] => [[c]]
           end
  end.

Definition split (s : str) : list str := filter truthy (fields s).

(** [sep.join(parts)] *)
Fixpoint join (sep : str) (parts : list str) : str :=
  match parts with
  | [] => []
  | [p] => p
  | p :: ps => p ++ sep ++ join sep ps
  end.

(** A word: what [split()] yields, a non-empty string with no whitespace. *)
Definition is_word (s : str) : Prop :=
  s <> [] /\ Forall (fun c => isspace c = false) s.

End PyStr.

Import PyStr.

(** ** The triplet parser: [BaseRelationExtractor.extract_triplets_typed] *)

(** A triplet is the dict with keys [head], [head_type], [type], [tail],
    [tail_type]; the key [type] holds the relation. *)
Record Triplet := mkTriplet {
  head : str;
  head_type : str;
  type : str;
  tail : str;
  tail_type : str
}.

(** [all(triplet.values())] *)
Definition all_values (t : Triplet) : bool :=
  truthy (head t) && truthy (head_type t) && truthy (type t)
  && truthy (tail t) && truthy (tail_type t).

(** The value of the variable [current]: ['x'], ['t'], ['s'] or ['o']. *)
Inductive Current := Cx | Ct | Cs | Co.

(** The local variables of the parsing loop. *)
Record ParserState := mkParserState {
  current : Current;
  subject : str;
  relation : str;
  object_ : str;
  object_type : str;
  subject_type : str;
  triplets : list Triplet
}.

Definition parser_init : ParserState :=
  mkParserState Cx [] [] [] [] [] [].

(** The dict built at each flush point. *)
Definition candidate (st : ParserState) : Triplet :=
  mkTriplet (strip (subject st)) (subject_type st) (strip (relation st))
            (strip (object_ st)) (object_type st).

(** [if all(triplet.values()): triplets.append(triplet)] *)
Definition emit_if_complete (st : ParserState) : list Triplet :=
  if all_values (candidate st) then triplets st ++ [candidate st]
  else triplets st.

Definition TRIPLET := u "<triplet>".
Definition RELATION := u "<relation>".
Definition LT := u "<".
Definition GT := u ">".

(** One iteration of [for token in tokens]. *)
Definition parser_step (st : ParserState) (token : str) : ParserState :=
  if eqb token TRIPLET || eqb token RELATION then
    (* current = 't' *)
    if truthy (relation st) then
      mkParserState Ct [] [] (object_ st) (object_type st) (subject_type st)
                    (emit_if_complete st)
    else
      mkParserState Ct [] (relation st) (object_ st) (object_type st)
                    (subject_type st) (triplets st)
  else if startswith token LT && endswith token GT then
    match current st with
    | Ct | Co =>
        (* current = 's' *)
        mkParserState Cs (subject st) (relation st) [] (object_type st)
                      (slice_1_m1 token)
                      (if truthy (relation st) then emit_if_complete st
                       else triplets st)
    | _ =>
        (* current = 'o' *)
        mkParserState Co (subject st) [] (object_ st) (slice_1_m1 token)
                      (subject_type st) (triplets st)
    end
  else
    match current st with
    | Ct => mkParserState Ct (subject st ++ SPACE :: token) (relation st)
                          (object_ st) (object_type st) (subject_type st)
                          (triplets st)
    | Cs => mkParserState Cs (subject st) (relation st)
                          (object_ st ++ SPACE :: token) (object_type st)
                          (subject_type st) (triplets st)
    | Co => mkParserState Co (subject st) (relation st ++ SPACE :: token)
                          (object_ st) (object_type st) (subject_type st)
                          (triplets st)
    | Cx => st
    end.

(** The flush after the loop: the raw accumulators are tested, the
    stripped ones are stored. *)
Definition parser_finish (st : ParserState) : list Triplet :=
  if truthy (subject st) && truthy (relation st) && truthy (object_ st)
     && truthy (object_type st) && truthy (subject_type st)
  then triplets st ++ [candidate st]
  else triplets st.

(** The sentinel tokens removed before tokenizing. *)
Definition tokenize (text : str) : list str :=
  split (replace (replace (replace (replace (replace text
    (u "<s>") []) (u "<pad>") []) (u "</s>") []) (u "tp_XX") [])
    (u "__en__") []).

Definition parse_tokens (tokens : list str) : list Triplet :=
  parser_finish (fold_left parser_step tokens parser_init).

(** What a call gives back: a value, or an exception that leaves it. *)
Inductive outcome (A : Type) : Type :=
| Returned (a : A)
| Raised.
Arguments Raised {A}.

(** [try: body  except Exception: handler] *)
Definition try_except {A} (body : outcome A) (handler : outcome A)
  : outcome A :=
  match body with
  | Returned a => Returned a
  | Raised => handler
  end.

(** The body of the [try] block: every operation in it is an operation on
    [str], lists and dicts that is defined on all its arguments. *)
Definition extract_body (text : str) : outcome (list Triplet) :=
  Returned (parse_tokens (tokenize text)).

Definition extract_triplets_typed (text : str) : outcome (list Triplet) :=
  if negb (truthy text) then Returned []
  else try_except (extract_body (strip text)) (Returned []).

(** ** The extractor object

    [self]: the configuration given to [__init__], in the base class and
    in the streaming one, and the external collaborators the methods call
    (tokenizer, sentence splitter, language detector, translation
    pipeline). *)

Definition TokenIds := list Z.

(** What [self.extractor(...)] can give back, as far as [process_segment]
    looks at it. *)
Inductive ResultItem :=
| ItemDict (translation_token_ids : option TokenIds)
| ItemOther.

Inductive PipelineResult :=
| ResNotAList
| ResList (items : list ResultItem).

Record Extractor := mkExtractor {
  max_length : Z;
  batch_size : Z;
  queue_size : Z;
  (** [len(self.tokenizer.encode(text))] *)
  get_token_length : str -> nat;
  (** [nltk.tokenize.sent_tokenize] *)
  sent_tokenize : str -> list str;
  detect_language : str -> str;
  (** [self.extractor(segment, ..., src_lang=src_lang, ...)] *)
  extractor : str -> str -> outcome PipelineResult;
  (** [self.extractor.tokenizer.batch_decode] *)
  batch_decode : list TokenIds -> outcome (list str)
}.

(** [self.safe_length = int(0.9 * max_length)].  [int] truncates towards
    zero; the product is taken in the integers, which agrees with the
    truncated double product for every [max_length] below [2^50] in
    absolute value. *)
Definition safe_length (self : Extractor) : Z :=
  Z.quot (9 * max_length self) 10.

(** ** The segmenter: [BaseRelationExtractor.segment_document] *)

Definition tokens_of (self : Extractor) (s : str) : Z :=
  Z.of_nat (get_token_length self s).

(** [if xs: segments.append(' '.join(xs))] *)
Definition flush (segments : list str) (xs : list str) : list str :=
  match xs with
  | [] => segments
  | _ :: _ => segments ++ [join [SPACE] xs]
  end.

(** The variables of the inner loop over the words of an oversized
    sentence. *)
Record WordLoop := mkWordLoop {
  w_segments : list str;
  temp_segment : list str;
  temp_length : Z
}.

Definition word_step (self : Extractor) (st : WordLoop) (word : str)
  : WordLoop :=
  let word_tokens := tokens_of self (word ++ [SPACE]) in
  if (temp_length st + word_tokens >? safe_length self)%Z then
    mkWordLoop (flush (w_segments st) (temp_segment st)) [word] word_tokens
  else
    mkWordLoop (w_segments st) (temp_segment st ++ [word])
               (temp_length st + word_tokens)%Z.

(** The variables of the loop over the sentences. *)
Record SentenceLoop := mkSentenceLoop {
  segments : list str;
  current_segment : list str;
  current_length : Z
}.

Definition sentence_step (self : Extractor) (st : SentenceLoop)
  (sentence : str) : SentenceLoop :=
  let sentence_tokens := tokens_of self sentence in
  if (sentence_tokens >? safe_length self)%Z then
    let flushed :=
      match current_segment st with
      | [] => st
      | _ :: _ => mkSentenceLoop (flush (segments st) (current_segment st))
                                 [] 0%Z
      end in
    let words := split sentence in
    let w := fold_left (word_step self) words
                       (mkWordLoop (segments flushed) [] 0%Z) in
    mkSentenceLoop (flush (w_segments w) (temp_segment w))
                   (current_segment flushed) (current_length flushed)
  else if (current_length st + sentence_tokens >? safe_length self)%Z then
    mkSentenceLoop (flush (segments st) (current_segment st))
                   [sentence] sentence_tokens
  else
    mkSentenceLoop (segments st) (current_segment st ++ [sentence])
                   (current_length st + sentence_tokens)%Z.

Definition segment_document (self : Extractor) (text : str) : list str :=
  let st := fold_left (sentence_step self) (sent_tokenize self text)
                      (mkSentenceLoop [] [] 0%Z) in
  flush (segments st) (current_segment st).

(** ** One inference call: [BaseRelationExtractor.process_segment] *)

(** A call of the inference capability: the segment and the language it
    was called with. *)
Definition InferenceCall := (str * str)%type.

(** The body of the [try] block, with the inference calls it makes. *)
Definition process_segment_body (self : Extractor) (segment src_lang : str)
  : outcome (list Triplet) * list InferenceCall :=
  if (tokens_of self segment >? safe_length self)%Z then
    (Returned [], [])
  else
    let calls := [(segment, src_lang)] in
    match extractor self segment src_lang with
    | Raised => (Raised, calls)
    | Returned ResNotAList => (Returned [], calls)
    | Returned (ResList []) => (Returned [], calls)
    | Returned (ResList (ItemOther :: _)) => (Raised, calls)
    | Returned (ResList (ItemDict None :: _)) => (Returned [], calls)
    | Returned (ResList (ItemDict (Some translation_ids) :: _)) =>
        match batch_decode self [translation_ids] with
        | Raised => (Raised, calls)
        | Returned [] => (Returned [], calls)
        | Returned (decoded :: _) => (extract_triplets_typed decoded, calls)
        end
    end.

(** [try: ...  except Exception: return []] *)
Definition process_segment (self : Extractor) (segment src_lang : str)
  : outcome (list Triplet) * list InferenceCall :=
  let (r, calls) := process_segment_body self segment src_lang in
  (try_except r (Returned []), calls).

(** ** The streaming pipeline: [StreamingRelationExtractor] *)

(** A document of the stream, with the id [document.get('id', ...)]
    gives and a text that is a string. *)
Record Document := mkDocument {
  d_id : str;
  d_text : str;
  d_path : option str
}.

(** The dict put in the input queue. *)
Record WorkItem := mkWorkItem {
  wi_doc_id : str;
  wi_segment : str;
  wi_src_lang : str
}.

(** The dict put in the output queue. *)
Record SegmentResult := mkSegmentResult {
  sr_doc_id : str;
  sr_triplets : list Triplet
}.

(** The dict [final_result]. *)
Record DocumentResult := mkDocumentResult {
  dr_doc_id : str;
  dr_language : str;
  dr_triplets : list Triplet;
  dr_num_segments : nat;
  dr_path : option str
}.

(** *** The correlation loop of [process_stream] *)

(** The body of [while segments_processed < len(segments)], given what
    [await self._get_result()] returned: [None], or a result. *)
Definition collect_one (doc_id : str) (acc : list Triplet * nat)
  (result : option SegmentResult) : list Triplet * nat :=
  match result with
  | Some r =>
      if eqb (sr_doc_id r) doc_id
      then (fst acc ++ sr_triplets r, S (snd acc))
      else acc
  | None => acc
  end.

(** The whole loop, run on the successive values of [_get_result()].  It
    gives the collected triplets and the values not yet asked for, or
    [None] while the loop is still waiting. *)
Fixpoint correlate (doc_id : str) (n : nat) (doc_results : list Triplet)
  (segments_processed : nat) (polls : list (option SegmentResult))
  : option (list Triplet * list (option SegmentResult)) :=
  if segments_processed <? n then
    match polls with
    | [] => None
    | result :: polls' =>
        let acc := collect_one doc_id (doc_results, segments_processed)
                               result in
        correlate doc_id n (fst acc) (snd acc) polls'
    end
  else Some (doc_results, polls).

(** What the body of [async for document in document_stream] does with
    one document. *)
Inductive DocOutcome :=
| Skipped
| Waiting
| Yielded (r : DocumentResult) (rest : list (option SegmentResult)).

Definition work_items (self : Extractor) (doc : Document) : list WorkItem :=
  let text := strip (d_text doc) in
  map (fun segment => mkWorkItem (d_id doc) segment
                                 (detect_language self text))
      (segment_document self text).

Definition process_document (self : Extractor) (doc : Document)
  (polls : list (option SegmentResult)) : DocOutcome :=
  let text := strip (d_text doc) in
  if negb (truthy text) then Skipped
  else
    let n := length (segment_document self text) in
    match correlate (d_id doc) n [] 0 polls with
    | None => Waiting
    | Some (doc_results, rest) =>
        Yielded (mkDocumentResult (d_id doc) (detect_language self text)
                                  doc_results n (d_path doc)) rest
    end.

(** *** The two threads

    The worker thread runs [_process_queue]; the main thread runs the
    generator [process_stream] and its consumer.  They share the two
    queues and the stop event, and each access to one of these is one
    atomic step. *)

(** Where the worker is in [_process_queue]. *)
Inductive WorkerPc :=
| WNotStarted
| WHead                                          (* 89: stop_event.is_set() *)
| WHeadEmpty                                     (* 89: input_queue.empty() *)
| WInner (batch : list WorkItem)                 (* 93 *)
| WGet (batch : list WorkItem)                   (* 95 *)
| WStopCheck                                     (* 102 *)
| WProc (rest : list WorkItem) (batch_ids : list str)    (* 107 *)
| WExcept (ids : list str)                       (* 115 *)
| WExit.

(** The document being correlated. *)
Record DocCtx := mkDocCtx {
  c_doc_id : str;
  c_src_lang : str;
  c_num_segments : nat;
  c_path : option str
}.

(** Where the main thread is in [process_stream]. *)
Inductive MainPc :=
| MStart (docs : list Document)                              (* 33 *)
| MNext (docs : list Document)                               (* 39 *)
| MPut (ctx : DocCtx) (items : list WorkItem) (docs : list Document)  (* 51 *)
| MCollect (ctx : DocCtx) (doc_results : list Triplet)
           (segments_processed : nat) (docs : list Document) (* 60 *)
| MSleep (ctx : DocCtx) (doc_results : list Triplet)
         (segments_processed : nat) (docs : list Document)   (* 127 *)
| MFinally                                                   (* 83 *)
| MJoin                                                      (* 85 *)
| MDone.

Record State := mkState {
  input_queue : list WorkItem;
  output_queue : list SegmentResult;
  stop_event : bool;
  worker : WorkerPc;
  main : MainPc;
  yielded : list DocumentResult
}.

Definition set_worker (w : WorkerPc) (st : State) : State :=
  mkState (input_queue st) (output_queue st) (stop_event st) w (main st)
          (yielded st).

Definition set_main (m : MainPc) (st : State) : State :=
  mkState (input_queue st) (output_queue st) (stop_event st) (worker st) m
          (yielded st).

Definition set_input_queue (q : list WorkItem) (st : State) : State :=
  mkState q (output_queue st) (stop_event st) (worker st) (main st)
          (yielded st).

Definition set_output_queue (q : list SegmentResult) (st : State) : State :=
  mkState (input_queue st) q (stop_event st) (worker st) (main st)
          (yielded st).

Definition set_stop_event (b : bool) (st : State) : State :=
  mkState (input_queue st) (output_queue st) b (worker st) (main st)
          (yielded st).

Definition add_yielded (r : DocumentResult) (st : State) : State :=
  mkState (input_queue st) (output_queue st) (stop_event st) (worker st)
          (main st) (yielded st ++ [r]).

(** Line 101, once the inner loop is left. *)
Definition after_batch (batch : list WorkItem) : WorkerPc :=
  match batch with
  | [] => WStopCheck
  | _ :: _ => WProc batch (map wi_doc_id batch)
  end.

(** One step of the worker thread; [None] when the thread does not run. *)
Definition worker_step (self : Extractor) (st : State) : option State :=
  match worker st with
  | WNotStarted | WExit => None
  | WHead =>
      Some (set_worker (if stop_event st then WHeadEmpty else WInner []) st)
  | WHeadEmpty =>
      Some (set_worker (match input_queue st with
                        | [] => WExit
                        | _ :: _ => WInner []
                        end) st)
  | WInner batch =>
      Some (set_worker
              (if (Z.of_nat (length batch) <? batch_size self)%Z
               then match input_queue st with
                    | [] => after_batch batch
                    | _ :: _ => WGet batch
                    end
               else after_batch batch) st)
  | WGet batch =>
      Some (match input_queue st with
            | item :: rest =>
                set_worker (WInner (batch ++ [item]))
                           (set_input_queue rest st)
            | [] => set_worker (after_batch batch) st
            end)
  | WStopCheck =>
      Some (set_worker (if stop_event st then WExit else WHead) st)
  | WProc [] _ => Some (set_worker WHead st)
  | WProc (item :: rest) batch_ids =>
      Some (match fst (process_segment self (wi_segment item)
                                       (wi_src_lang item)) with
            | Returned triplets =>
                set_worker (WProc rest batch_ids)
                  (set_output_queue
                     (output_queue st
                      ++ [mkSegmentResult (wi_doc_id item) triplets]) st)
            | Raised => set_worker (WExcept batch_ids) st
            end)
  | WExcept [] => Some (set_worker WHead st)
  | WExcept (doc_id :: ids) =>
      Some (set_worker (WExcept ids)
              (set_output_queue
                 (output_queue st ++ [mkSegmentResult doc_id []]) st))
  end.

(** [Queue(maxsize)]: a size of zero or less is no bound. *)
Definition queue_full (self : Extractor) (q : list WorkItem) : bool :=
  ((0 <? queue_size self) && (queue_size self <=? Z.of_nat (length q)))%Z.

(** One step of the main thread; [None] when it is blocked ([put] on a
    full queue, [join] on a running worker) or has finished. *)
Definition main_step (self : Extractor) (st : State) : option State :=
  match main st with
  | MStart docs =>
      Some (match worker st with
            | WNotStarted | WExit =>
                set_main (MNext docs)
                         (set_worker WHead (set_stop_event false st))
            | _ => set_main (MNext docs) st
            end)
  | MNext [] => Some (set_main MFinally st)
  | MNext (doc :: docs) =>
      let text := strip (d_text doc) in
      if negb (truthy text) then Some (set_main (MNext docs) st)
      else
        let items := work_items self doc in
        let ctx := mkDocCtx (d_id doc) (detect_language self text)
                            (length items) (d_path doc) in
        Some (set_main (MPut ctx items docs) st)
  | MPut ctx [] docs => Some (set_main (MCollect ctx [] 0 docs) st)
  | MPut ctx (item :: items) docs =>
      if queue_full self (input_queue st) then None
      else Some (set_main (MPut ctx items docs)
                          (set_input_queue (input_queue st ++ [item]) st))
  | MCollect ctx doc_results segments_processed docs =>
      if segments_processed <? c_num_segments ctx then
        match output_queue st with
        | result :: rest =>
            let acc := collect_one (c_doc_id ctx)
                         (doc_results, segments_processed) (Some result) in
            Some (set_main (MCollect ctx (fst acc) (snd acc) docs)
                           (set_output_queue rest st))
        | [] => Some (set_main (MSleep ctx doc_results segments_processed
                                       docs) st)
        end
      else
        Some (set_main (MNext docs)
                (add_yielded (mkDocumentResult (c_doc_id ctx)
                                (c_src_lang ctx) doc_results
                                (c_num_segments ctx) (c_path ctx)) st))
  | MSleep ctx doc_results segments_processed docs =>
      Some (set_main (MCollect ctx doc_results segments_processed docs) st)
  | MFinally => Some (set_main MJoin (set_stop_event true st))
  | MJoin =>
      match worker st with
      | WNotStarted | WExit => Some (set_main MDone st)
      | _ => None
      end
  | MDone => None
  end.

(** The coroutine running the generator is cancelled: the exception is
    delivered at [await asyncio.sleep(0.1)] and control goes to the
    [finally] block. *)
Definition cancel_step (st : State) : option State :=
  match main st with
  | MSleep _ _ _ _ => Some (set_main MFinally st)
  | _ => None
  end.

Inductive Label := Worker | Main | Cancel.

Definition step (self : Extractor) (l : Label) (st : State) : option State :=
  match l with
  | Worker => worker_step self st
  | Main => main_step self st
  | Cancel => cancel_step st
  end.

(** A schedule is run step by step; it is refused when one of its steps
    cannot be taken. *)
Fixpoint run (self : Extractor) (schedule : list Label) (st : State)
  : option State :=
  match schedule with
  | [] => Some st
  | l :: schedule' =>
      match step self l st with
      | Some st' => run self schedule' st'
      | None => None
      end
  end.

Definition initial (docs : list Document) : State :=
  mkState [] [] false WNotStarted (MStart docs) [].

(** ** The properties: their vocabulary

    The predicates the theorems are stated with, the invariants of the
    loops, and the concrete extractors and documents of the examples. *)

(** *** Parser *)

(** An accumulator ([subject], [relation], [object_]) is empty or holds a
    character that [strip] keeps. *)
Definition acc_ok (s : str) : Prop :=
  s = [] \/ Exists (fun c => isspace c = false) s.

Definition complete (t : Triplet) : Prop :=
  head t <> [] /\ head_type t <> [] /\ type t <> [] /\ tail t <> []
  /\ tail_type t <> [].

Record parser_inv (st : ParserState) : Prop := {
  inv_triplets : Forall complete (triplets st);
  inv_subject : acc_ok (subject st);
  inv_relation : acc_ok (relation st);
  inv_object : acc_ok (object_ st)
}.

(** *** Segmenter *)

(** The words held by the loop: those of the finished segments, then
    those of the segment being built. *)
Definition held_words (segs pending : list str) : list str :=
  flat_map split segs ++ flat_map split pending.

(** What the specification asks of a segment: it fits the budget, or it is
    a single word that does not. *)
Definition within_budget (self : Extractor) (s : str) : Prop :=
  (tokens_of self s <= safe_length self)%Z
  \/ (is_word s /\ (safe_length self < tokens_of self s)%Z).

(** The loops add up the lengths of the pieces; the length of the joined
    segment is another call of the tokenizer.  The sum bounds it when the
    tokenizer satisfies these two conditions. *)
Definition subadditive (self : Extractor) : Prop :=
  forall a b : str,
    (tokens_of self (a ++ SPACE :: b)
     <= tokens_of self a + tokens_of self b)%Z.

Definition trailing_space_monotone (self : Extractor) : Prop :=
  forall w : str, (tokens_of self w <= tokens_of self (w ++ [SPACE]))%Z.

Definition total (f : str -> Z) (xs : list str) : Z :=
  fold_right (fun x acc => (f x + acc)%Z) 0%Z xs.

(** The word loop: the segment being built is empty, a single word, or
    within the budget by the sum kept in [temp_length]. *)
Record word_inv (self : Extractor) (st : WordLoop) : Prop := {
  winv_segments : Forall (within_budget self) (w_segments st);
  winv_words : Forall is_word (temp_segment st);
  winv_length :
    temp_length st
    = total (fun w => tokens_of self (w ++ [SPACE])) (temp_segment st);
  winv_budget : temp_segment st = [] \/ length (temp_segment st) = 1
                \/ (temp_length st <= safe_length self)%Z
}.

(** The sentence loop: [current_length] is the sum of the lengths of the
    sentences of [current_segment], and it is within the budget. *)
Record sentence_inv (self : Extractor) (st : SentenceLoop) : Prop := {
  sinv_segments : Forall (within_budget self) (segments st);
  sinv_length :
    current_length st = total (tokens_of self) (current_segment st);
  sinv_budget : current_segment st = []
                \/ (current_length st <= safe_length self)%Z
}.

(** *** Concrete extractors *)

(** A sentence splitter for the examples: a sentence ends at a full stop
    that a space follows. *)
Fixpoint dot_sentences (cur s : str) : list str :=
  match s with
  | [] => match cur with [] => [] | _ :: _ => [rev cur] end
  | c :: s' =>
      if (c =? SPACE)%N
         && match cur with d :: _ => (d =? ch ".")%N | [] => false end
      then rev cur :: dot_sentences [] s'
      else dot_sentences (c :: cur) s'
  end.

(** A tokenizer with one token per character and no special token; the
    inference call always fails. *)
Definition chars_extractor : Extractor :=
  mkExtractor 7 8 1000 (@length char) (dot_sentences [])
              (fun _ => u "en_XX") (fun _ _ => Raised) (fun _ => Raised).

(** A tokenizer with one token per word; the inference call always
    fails. *)
Definition words_extractor : Extractor :=
  mkExtractor 3 8 1000 (fun s => length (split s)) (dot_sentences [])
              (fun _ => u "en_XX") (fun _ _ => Raised) (fun _ => Raised).

(** The same tokenizer, and a model that answers every segment with the
    same triplet. *)
Definition fixed_extractor : Extractor :=
  mkExtractor 3 8 1000 (fun s => length (split s)) (dot_sentences [])
              (fun _ => u "en_XX")
              (fun _ _ => Returned (ResList [ItemDict (Some [5; 6; 7]%Z)]))
              (fun _ => Returned
                 [u "<s>tp_XX<triplet> Apple <org> Cupertino <loc> based in</s>"]).

(** The same again, but the inference call fails on the segment "One."
    and answers every other segment. *)
Definition mixed_extractor : Extractor :=
  mkExtractor 3 8 1000 (fun s => length (split s)) (dot_sentences [])
              (fun _ => u "en_XX")
              (fun segment _ =>
                 if eqb segment (u "One.") then Raised
                 else Returned (ResList [ItemDict (Some [5; 6; 7]%Z)]))
              (fun _ => Returned
                 [u "<s>tp_XX<triplet> Apple <org> Cupertino <loc> based in</s>"]).

(** *** Pipeline: what a call is to yield, and its invariant *)

(** The triplets a call gave back; an exception gives none. *)
Definition triplets_of (o : outcome (list Triplet)) : list Triplet :=
  match o with
  | Returned ts => ts
  | Raised => []
  end.

(** The triplets [process_segment] finds for a work item. *)
Definition item_triplets (self : Extractor) (item : WorkItem)
  : list Triplet :=
  triplets_of (fst (process_segment self (wi_segment item)
                                    (wi_src_lang item))).

Definition result_of (ctx : DocCtx) (ts : list Triplet) : DocumentResult :=
  mkDocumentResult (c_doc_id ctx) (c_src_lang ctx) ts (c_num_segments ctx)
                   (c_path ctx).

Definition ctx_of (self : Extractor) (doc : Document) : DocCtx :=
  mkDocCtx (d_id doc) (detect_language self (strip (d_text doc)))
           (length (work_items self doc)) (d_path doc).

(** The result a document should get: its segments in order, each with
    the triplets found for it. *)
Definition expected_result (self : Extractor) (doc : Document)
  : DocumentResult :=
  result_of (ctx_of self doc)
            (flat_map (item_triplets self) (work_items self doc)).

Definition has_text (doc : Document) : bool := truthy (strip (d_text doc)).

Definition expected (self : Extractor) (docs : list Document)
  : list DocumentResult :=
  map (expected_result self) (filter has_text docs).

(** The work items the worker has taken from the input queue and not yet
    answered. *)
Definition worker_items (w : WorkerPc) : list WorkItem :=
  match w with
  | WInner batch | WGet batch => batch
  | WProc rest _ => rest
  | _ => []
  end.

(** The work of the current document that is on its way: answered and in
    the output queue, held by the worker, in the input queue, or still
    to be put. *)
Definition pending_items (st : State) (to_put : list WorkItem)
  : list WorkItem :=
  worker_items (worker st) ++ input_queue st ++ to_put.

Definition in_flight (self : Extractor) (st : State)
  (to_put : list WorkItem) : list Triplet :=
  flat_map sr_triplets (output_queue st)
  ++ flat_map (item_triplets self) (pending_items st to_put).

Definition in_flight_count (st : State) (to_put : list WorkItem) : nat :=
  length (output_queue st) + length (pending_items st to_put).

Definition tagged (doc_id : str) (st : State) (to_put : list WorkItem)
  : Prop :=
  Forall (fun r => sr_doc_id r = doc_id) (output_queue st)
  /\ Forall (fun i => wi_doc_id i = doc_id) (pending_items st to_put).

Definition idle (st : State) : Prop :=
  input_queue st = [] /\ output_queue st = []
  /\ worker_items (worker st) = [].

(** The worker thread is in its loop. *)
Definition in_loop (w : WorkerPc) : Prop :=
  match w with
  | WHead | WInner _ | WGet _ | WStopCheck | WProc _ _ => True
  | _ => False
  end.

(** The worker thread after [stop_event.set()]. *)
Definition stopping (w : WorkerPc) : Prop :=
  match w with
  | WNotStarted | WExcept _ => False
  | _ => True
  end.

(** The document the main thread is working on: its context, the
    triplets collected, the number of results counted and the items
    still to be put. *)
Definition current_doc (m : MainPc)
  : option (DocCtx * list Triplet * nat * list WorkItem) :=
  match m with
  | MPut ctx items _ => Some (ctx, [], 0, items)
  | MCollect ctx doc_results k _ | MSleep ctx doc_results k _ =>
      Some (ctx, doc_results, k, [])
  | _ => None
  end.

(** The documents the main thread has not started yet. *)
Definition later_docs (m : MainPc) : list Document :=
  match m with
  | MStart docs | MNext docs | MPut _ _ docs | MCollect _ _ _ docs
  | MSleep _ _ _ docs => docs
  | _ => []
  end.

(** What holds of every state of a call of [process_stream] on [docs0]
    that is not cancelled. *)
Record pipeline_inv (self : Extractor) (docs0 : list Document) (st : State)
  : Prop := {
  inv_thread :
    match main st with
    | MStart _ => worker st = WNotStarted /\ stop_event st = false
    | MJoin => stop_event st = true /\ stopping (worker st)
    | MDone => worker st = WExit
    | _ => stop_event st = false /\ in_loop (worker st)
    end;
  inv_current :
    match current_doc (main st) with
    | Some (ctx, doc_results, k, to_put) =>
        tagged (c_doc_id ctx) st to_put
        /\ k + in_flight_count st to_put = c_num_segments ctx
    | None => idle st
    end;
  inv_results :
    yielded st
    ++ match current_doc (main st) with
       | Some (ctx, doc_results, k, to_put) =>
           [result_of ctx (doc_results ++ in_flight self st to_put)]
       | None => []
       end
    ++ expected self (later_docs (main st))
    = expected self docs0
}.

(** The worker thread has been started, and has ended when the call is
    over. *)
Definition joined (st : State) : Prop :=
  match main st with
  | MStart _ => True
  | MDone => worker st = WExit
  | _ => worker st <> WNotStarted
  end.

Definition cancel_free (schedule : list Label) : Prop :=
  Forall (fun l => l <> Cancel) schedule.

(** *** Pipeline: progress

    A count of the steps that are left in a call: it goes down at every
    step of the thread that [next_label] picks. *)

Definition doc_cost (self : Extractor) (doc : Document) : nat :=
  if has_text doc then 4 + 9 * length (work_items self doc) else 1.

Definition docs_cost (self : Extractor) (docs : list Document) : nat :=
  fold_right (fun doc acc => doc_cost self doc + acc) 11 docs.

Definition main_cost (self : Extractor) (m : MainPc) : nat :=
  match m with
  | MStart docs => docs_cost self docs + 6
  | MNext docs => docs_cost self docs
  | MPut _ items docs => docs_cost self docs + 3 + 9 * length items
  | MCollect _ _ _ docs => docs_cost self docs + 1
  | MSleep _ _ _ docs => docs_cost self docs + 2
  | MFinally => 10
  | MJoin => 1
  | MDone => 0
  end.

Definition worker_cost (stop : bool) (w : WorkerPc) : nat :=
  if stop then
    match w with
    | WProc _ _ => 3
    | WHead | WInner _ | WGet _ => 2
    | WHeadEmpty | WStopCheck => 1
    | _ => 0
    end
  else
    match w with
    | WProc _ _ | WStopCheck => 4
    | WHead => 3
    | WInner _ => 2
    | WGet _ => 1
    | _ => 0
    end.

Definition held_cost (w : WorkerPc) : nat :=
  match w with
  | WInner batch | WGet batch => 6 * length batch
  | WProc rest _ => 2 * length rest
  | _ => 0
  end.

Definition steps_left (self : Extractor) (st : State) : nat :=
  main_cost self (main st) + worker_cost (stop_event st) (worker st)
  + held_cost (worker st) + 8 * length (input_queue st)
  + length (output_queue st).

(** The thread to run next: the main thread when it can do something
    other than wait, the worker otherwise. *)
Definition next_label (self : Extractor) (st : State) : Label :=
  match main st with
  | MPut _ (_ :: _) _ =>
      if queue_full self (input_queue st) then Worker else Main
  | MCollect ctx _ k _ =>
      if k <? c_num_segments ctx then
        match output_queue st with
        | [] => Worker
        | _ :: _ => Main
        end
      else Main
  | MJoin =>
      match worker st with
      | WExit => Main
      | _ => Worker
      end
  | _ => Main
  end.

(** *** Pipeline: correlation *)

(** The results of a sequence of polls that carry the id of the document
    being collected. *)
Definition is_tagged (doc_id : str) (result : option SegmentResult) : bool :=
  match result with
  | Some r => eqb (sr_doc_id r) doc_id
  | None => false
  end.

Definition count_tagged (doc_id : str) (polls : list (option SegmentResult))
  : nat :=
  length (filter (is_tagged doc_id) polls).

Definition tagged_triplets (doc_id : str)
  (polls : list (option SegmentResult)) : list Triplet :=
  flat_map (fun p => match p with
                     | Some r => sr_triplets r
                     | None => []
                     end)
           (filter (is_tagged doc_id) polls).

(** The state keeps segment results in the output queue and nowhere else:
    a result taken from it that is to reach a later correlation has to be
    there again after the step. *)
Definition redistributes (self : Extractor) (st : State) : Prop :=
  forall ctx doc_results k docs r rest st',
    main st = MCollect ctx doc_results k docs ->
    output_queue st = r :: rest ->
    sr_doc_id r <> c_doc_id ctx ->
    main_step self st = Some st' ->
    In r (output_queue st').

(** *** Documents, states and schedules of the examples *)

Definition docA : Document :=
  mkDocument (u "doc1") (u "Hi there all. Yo.") None.
Definition docB : Document := mkDocument (u "doc2") (u "  ") None.
Definition docC : Document :=
  mkDocument (u "doc3") (u "One.") (Some (u "/tmp/c.txt")).

Definition apple : Triplet :=
  mkTriplet (u "Apple") (u "org") (u "based in") (u "Cupertino") (u "loc").

(** The main thread collects for "doc3"; a result of "doc1" is ahead of
    the result of "doc3" in the output queue. *)
Definition interleaved : State :=
  mkState [] [mkSegmentResult (u "doc1") [apple];
              mkSegmentResult (u "doc3") []]
          false WHead
          (MCollect (ctx_of fixed_extractor docC) [] 0 []) [].

(** The worker finds the input queue empty; the document is put and the
    call is cancelled while it waits for the result; the worker then
    reads the stop event. *)
Definition race_schedule : list Label :=
  [Main; Worker; Worker; Main; Main; Main; Main; Cancel; Main; Worker;
   Main].

(** A schedule that runs three documents to the end. *)
Definition full_schedule : list Label :=
  [Main; Main; Main; Main; Main; Main; Worker; Worker; Worker; Worker;
   Worker; Worker; Worker; Worker; Worker; Main; Worker; Main; Worker;
   Main; Main; Main; Main; Main; Main; Worker; Worker; Worker; Worker;
   Worker; Worker; Main; Main; Main; Main; Worker; Worker; Worker; Main].

(** The result of a document whose segments all came back empty. *)
Definition empty_result (self : Extractor) (doc : Document)
  : DocumentResult :=
  mkDocumentResult (d_id doc) (detect_language self (strip (d_text doc))) []
                   (length (segment_document self (strip (d_text doc))))
                   (d_path doc).

(** Every inference call made for the document fails: for each of its
    segments that passes the length test of [process_segment], the call
    with the language detected for the document raises.  Nothing is
    asked of the calls made for other documents. *)
Definition inference_fails (self : Extractor) (doc : Document) : Prop :=
  let text := strip (d_text doc) in
  forall segment,
    In segment (segment_document self text) ->
    (tokens_of self segment <= safe_length self)%Z ->
    extractor self segment (detect_language self text) = Raised.

(** ** Further properties: their vocabulary *)

(** *** The linearized form the parser reads

    A fact as the model writes it: the marker [<triplet>], the words of
    the head, the head type in brackets, the words of the tail, the tail
    type in brackets, the words of the relation. *)
Record Fact := mkFact {
  f_head : list str;
  f_head_type : str;
  f_tail : list str;
  f_tail_type : str;
  f_relation : list str
}.

Definition tag (name : str) : str := ch "<" :: name ++ [ch ">"].

Definition linearize_fact (f : Fact) : list str :=
  TRIPLET :: f_head f ++ tag (f_head_type f) :: f_tail f
  ++ tag (f_tail_type f) :: f_relation f.

Definition linearize (fs : list Fact) : list str :=
  flat_map linearize_fact fs.

Definition fact_triplet (f : Fact) : Triplet :=
  mkTriplet (join [SPACE] (f_head f)) (f_head_type f)
            (join [SPACE] (f_relation f)) (join [SPACE] (f_tail f))
            (f_tail_type f).

(** The test of the second branch of the loop. *)
Definition is_tag (token : str) : bool :=
  startswith token LT && endswith token GT.

(** A word of a head, a tail or a relation: not a bracketed token. *)
Definition plain_word (w : str) : Prop := is_word w /\ is_tag w = false.

Definition type_name (t : str) : Prop :=
  t <> [] /\ t <> u "triplet" /\ t <> u "relation".

Record well_formed (f : Fact) : Prop := {
  wf_head : f_head f <> [] /\ Forall plain_word (f_head f);
  wf_tail : f_tail f <> [] /\ Forall plain_word (f_tail f);
  wf_relation : f_relation f <> [] /\ Forall plain_word (f_relation f);
  wf_head_type : type_name (f_head_type f);
  wf_tail_type : type_name (f_tail_type f)
}.

(** What an accumulator holds after the words [ws]: each word with a
    space before it. *)
Definition raw (ws : list str) : str := flat_map (fun w => SPACE :: w) ws.

(** The first character, if there is one, is not whitespace. *)
Definition starts_plain (s : str) : Prop :=
  match s with
  | [] => True
  | c :: _ => isspace c = false
  end.

(** The triplets after a [<triplet>] marker. *)
Definition closed_triplets (st : ParserState) : list Triplet :=
  if truthy (relation st) then emit_if_complete st else triplets st.

(** A field is in normal form: its words with one space between them. *)
Definition normalized (s : str) : Prop := join [SPACE] (split s) = s.

Definition spaceless (s : str) : Prop :=
  Forall (fun c => isspace c = false) s.

Definition facts_example : list Fact :=
  [mkFact [u "Apple"; u "Inc."] (u "org") [u "Cupertino"] (u "loc")
          [u "headquartered"; u "in"];
   mkFact [u "Steve"; u "Jobs"] (u "per") [u "Apple"] (u "org")
          [u "founder"; u "of"]].

(** An accumulator holds words, each with a space before it. *)
Definition acc_words (s : str) : Prop :=
  exists ws, Forall is_word ws /\ s = raw ws.

Definition triplet_normal (t : Triplet) : Prop :=
  normalized (head t) /\ normalized (type t) /\ normalized (tail t)
  /\ spaceless (head_type t) /\ spaceless (tail_type t).

Record parser_form (st : ParserState) : Prop := {
  form_triplets : Forall triplet_normal (triplets st);
  form_subject : acc_words (subject st);
  form_relation : acc_words (relation st);
  form_object : acc_words (object_ st);
  form_object_type : spaceless (object_type st);
  form_subject_type : spaceless (subject_type st)
}.

(** *** Groups of sentences *)

(** The sentence [h] starts with did not fit after the group [g]. *)
Definition overflow (self : Extractor) (g h : list str) : Prop :=
  match h with
  | [] => False
  | s :: _ => (safe_length self < total (tokens_of self) g
                                  + tokens_of self s)%Z
  end.

(** Each group was closed because the next sentence did not fit. *)
Fixpoint greedy (self : Extractor) (groups : list (list str)) : Prop :=
  match groups with
  | [] => True
  | g :: rest =>
      match rest with
      | [] => True
      | h :: _ => overflow self g h
      end /\ greedy self rest
  end.

Definition group_ok (self : Extractor) (g : list str) : Prop :=
  g <> [] /\ (total (tokens_of self) g <= safe_length self)%Z.

(** The sentence loop when no sentence is oversized: the segments are
    the closed groups, the segment being built is the open one. *)
Record groups_inv (self : Extractor) (processed : list str)
  (st : SentenceLoop) (groups : list (list str)) : Prop := {
  ginv_all : concat groups ++ current_segment st = processed;
  ginv_ok : Forall (group_ok self) groups;
  ginv_segments : segments st = map (join [SPACE]) groups;
  ginv_length :
    current_length st = total (tokens_of self) (current_segment st);
  ginv_budget : (current_length st <= safe_length self)%Z;
  ginv_first : current_segment st = [] -> groups = [];
  ginv_greedy : greedy self (groups ++ [current_segment st])
}.

Definition nonempty (s : str) : Prop := s <> [].

(** *** Language detection: [BaseRelationExtractor.detect_language] *)

Module Lang.

(** [self.supported_languages] and [self.lang_mapping], each dict as the
    list of its items. *)
Definition supported_languages : list (str * str) :=
  [(u "ar", u "ar_AR"); (u "cs", u "cs_CZ"); (u "de", u "de_DE");
   (u "en", u "en_XX"); (u "es", u "es_XX"); (u "fr", u "fr_XX");
   (u "hi", u "hi_IN"); (u "it", u "it_IT"); (u "ja", u "ja_XX");
   (u "ko", u "ko_KR"); (u "nl", u "nl_XX"); (u "pl", u "pl_PL");
   (u "pt", u "pt_XX"); (u "ru", u "ru_RU"); (u "tr", u "tr_TR");
   (u "vi", u "vi_VN"); (u "zh", u "zh_CN")].

Definition lang_mapping : list (str * str) :=
  [(u "zh-cn", u "zh"); (u "zh-tw", u "zh"); (u "zh_cn", u "zh");
   (u "zh_tw", u "zh"); (u "zh-hans", u "zh"); (u "zh-hant", u "zh");
   (u "en-us", u "en"); (u "en-gb", u "en"); (u "pt-br", u "pt");
   (u "pt-pt", u "pt"); (u "es-es", u "es"); (u "es-mx", u "es");
   (u "fr-fr", u "fr"); (u "fr-ca", u "fr"); (u "de-de", u "de");
   (u "de-at", u "de"); (u "de-ch", u "de"); (u "ru-ru", u "ru");
   (u "it-it", u "it"); (u "ja-jp", u "ja"); (u "ko-kr", u "ko");
   (u "ar-sa", u "ar"); (u "ar-ae", u "ar"); (u "nl-nl", u "nl");
   (u "nl-be", u "nl"); (u "pl-pl", u "pl"); (u "tr-tr", u "tr");
   (u "vi-vn", u "vi")].

(** [d.get(key)], and [key in d] when it is [Some]. *)
Fixpoint lookup (key : str) (d : list (str * str)) : option str :=
  match d with
  | [] => None
  | (k, v) :: d' => if eqb key k then Some v else lookup key d'
  end.

(** [s.split('-')[0]] *)
Fixpoint before_dash (s : str) : str :=
  match s with
  | [] => []
  | c :: s' => if (c =? ch "-")%N then [] else c :: before_dash s'
  end.

Definition EN_XX : str := u "en_XX".

(** [lower] is [str.lower] and [detect] is [langdetect.detect]; both are
    parameters.  Every exception of the body is caught and gives
    ['en_XX']. *)
Definition detect_language (lower : str -> str)
  (detect : str -> outcome str) (text : str) : str :=
  let sample_text := firstn 1000 text in
  match detect sample_text with
  | Raised => EN_XX
  | Returned detected_lang =>
      let normalized_lang :=
        match lookup (lower detected_lang) lang_mapping with
        | Some base => base
        | None => before_dash detected_lang
        end in
      match lookup normalized_lang supported_languages with
      | Some model_lang_code => model_lang_code
      | None => EN_XX
      end
  end.

(** [str.lower] on ASCII strings, for the examples. *)
Definition ascii_lower (s : str) : str :=
  map (fun c => if (65 <=? c)%N && (c <=? 90)%N then (c + 32)%N else c) s.

End Lang.

(** *** The pipeline under any schedule *)

Definition sound (t : Triplet) : Prop := complete t /\ triplet_normal t.

(** The triplets the main thread has collected for the current
    document. *)
Definition collected (m : MainPc) : list Triplet :=
  match m with
  | MCollect _ doc_results _ _ | MSleep _ doc_results _ _ => doc_results
  | _ => []
  end.

Definition batch_bound (self : Extractor) (w : WorkerPc) : Prop :=
  match w with
  | WInner batch =>
      (Z.of_nat (length batch) <= Z.max 0 (batch_size self))%Z
  | WGet batch => (Z.of_nat (length batch) < batch_size self)%Z
  | WProc rest _ =>
      (Z.of_nat (length rest) <= Z.max 0 (batch_size self))%Z
  | _ => True
  end.

(** What holds of every state of a call, cancelled or not. *)
Record call_inv (self : Extractor) (st : State) : Prop := {
  call_queue :
    (0 < queue_size self)%Z ->
    (Z.of_nat (length (input_queue st)) <= queue_size self)%Z;
  call_batch : batch_bound self (worker st);
  call_stop :
    stop_event st = true <-> (main st = MJoin \/ main st = MDone);
  call_sound :
    Forall sound (flat_map sr_triplets (output_queue st))
    /\ Forall sound (collected (main st))
    /\ Forall sound (flat_map dr_triplets (yielded st))
}.

(** The result the worker computes for a work item. *)
Definition result_for (self : Extractor) (item : WorkItem) : SegmentResult :=
  mkSegmentResult (wi_doc_id item) (item_triplets self item).

(** The worker is at a place from which it drains the input queue before
    it leaves: anywhere in its loop, but, on line 102 or after the loop,
    with the input queue empty. *)
Definition drains (w : WorkerPc) (q : list WorkItem) : Prop :=
  match w with
  | WNotStarted | WExcept _ => False
  | WStopCheck | WExit => q = []
  | _ => True
  end.

(** After [stop_event.set()]: what the worker has produced and has still
    to produce is what was there when the event was set. *)
Record drain_inv (self : Extractor) (target : list SegmentResult)
  (st : State) : Prop := {
  drain_stop : stop_event st = true;
  drain_main : main st = MJoin \/ main st = MDone;
  drain_worker : drains (worker st) (input_queue st);
  drain_results :
    output_queue st
    ++ map (result_for self) (worker_items (worker st) ++ input_queue st)
    = target
}.

(** A call that was cancelled, or has left its loop over the documents:
    nothing more is yielded. *)
Definition leaving (m : MainPc) : Prop :=
  match m with
  | MFinally | MJoin | MDone => True
  | _ => False
  end.

(** A schedule with a cancellation, on three documents. *)
Definition cancelled_schedule : list Label :=
  [Main; Main; Main; Main; Main; Main; Worker; Worker; Worker; Worker;
   Main; Cancel; Main; Worker; Worker].

(** A count of the steps that are left once the call is leaving. *)
Definition leaving_cost (st : State) : nat :=
  match main st with
  | MFinally => 2
  | MJoin => 1
  | _ => 0
  end
  + match worker st with
    | WNotStarted | WExit => 0
    | WStopCheck => 1
    | WGet batch => 2 + 8 * length batch
    | WInner batch => 3 + 8 * length batch
    | WHeadEmpty => 4
    | WHead => 5
    | WProc rest _ => 6 + 2 * length rest
    | WExcept ids => 6 + length ids
    end
  + 10 * length (input_queue st).

Definition leaving_label (st : State) : Label :=
  match main st, worker st with
  | MFinally, _ => Main
  | _, (WNotStarted | WExit) => Main
  | _, _ => Worker
  end.

(** The worker is not in the handler of lines 113-119. *)
Definition no_except (w : WorkerPc) : Prop :=
  match w with
  | WExcept _ => False
  | _ => True
  end.

(** ** Properties of the string operations *)

Section StringFacts.

Local Abbreviation nonspace := (fun c : char => isspace c = false).

Lemma lstrip_nonspace (s : str) :
  Exists nonspace s -> Exists nonspace (lstrip s).
Proof.
  induction s as [|c s IH]; intros H; simpl.
  - exact H.
  - destruct (isspace c) eqn:Ec.
    + apply IH. inversion H; subst; [congruence | assumption].
    + exact H.
Qed.

Lemma Exists_nonspace_rev (s : str) :
  Exists nonspace s -> Exists nonspace (rev s).
Proof.
  rewrite !Exists_exists. intros [c [Hin Hc]]. exists c. split; auto.
  now apply in_rev in Hin.
Qed.

Lemma strip_nonspace (s : str) :
  Exists nonspace s -> Exists nonspace (strip s).
Proof.
  intros H. unfold strip, rstrip.
  now apply Exists_nonspace_rev, lstrip_nonspace, Exists_nonspace_rev,
    lstrip_nonspace.
Qed.

Lemma strip_truthy (s : str) :
  Exists nonspace s -> truthy (strip s) = true.
Proof.
  intros H. apply strip_nonspace in H.
  destruct (strip s); [inversion H | reflexivity].
Qed.

Lemma fields_not_nil (s : str) : fields s <> [].
Proof.
  destruct s as [|c s]; simpl; [discriminate|].
  destruct (isspace c); [discriminate|].
  destruct (fields s); discriminate.
Qed.

Lemma fields_nonspace (s : str) : Forall (Forall nonspace) (fields s).
Proof.
  induction s as [|c s IH]; simpl.
  - repeat constructor.
  - destruct (isspace c) eqn:Ec.
    + constructor; [constructor | exact IH].
    + destruct (fields s) as [|w ws].
      * repeat constructor. exact Ec.
      * inversion IH; subst. constructor; [constructor|]; assumption.
Qed.

Lemma truthy_not_nil (s : str) : truthy s = true <-> s <> [].
Proof. destruct s; simpl; split; congruence. Qed.

Lemma split_words (s : str) : Forall is_word (split s).
Proof.
  unfold split. apply Forall_forall. intros w Hw.
  apply filter_In in Hw. destruct Hw as [Hin Ht]. split.
  - now apply truthy_not_nil.
  - pose proof (fields_nonspace s) as H.
    rewrite Forall_forall in H. now apply H.
Qed.

Lemma fields_app_space (a b : str) (c : char) :
  isspace c = true -> fields (a ++ c :: b) = fields a ++ fields b.
Proof.
  intros Hc. induction a as [|x a IH]; simpl.
  - now rewrite Hc.
  - rewrite IH. destruct (isspace x); [reflexivity|].
    pose proof (fields_not_nil a) as Hne.
    destruct (fields a); [congruence | reflexivity].
Qed.

Lemma split_app_space (a b : str) :
  split (a ++ SPACE :: b) = split a ++ split b.
Proof.
  unfold split. rewrite fields_app_space by reflexivity.
  apply filter_app.
Qed.

Lemma split_join (l : list str) :
  split (join [SPACE] l) = flat_map split l.
Proof.
  induction l as [|p ps IH]; [reflexivity|].
  destruct ps as [|q ps].
  - simpl. now rewrite app_nil_r.
  - change (join [SPACE] (p :: q :: ps))
      with (p ++ SPACE :: join [SPACE] (q :: ps)).
    rewrite split_app_space, IH. reflexivity.
Qed.

Lemma fields_word (w : str) : Forall nonspace w -> fields w = [w].
Proof.
  induction 1 as [|c w Hc _ IH]; simpl; [reflexivity|].
  now rewrite Hc, IH.
Qed.

Lemma split_word (w : str) : is_word w -> split w = [w].
Proof.
  intros [Hne Hns]. unfold split. rewrite (fields_word Hns). simpl.
  destruct w; [congruence | reflexivity].
Qed.

Lemma flat_map_split_words (ws : list str) :
  Forall is_word ws -> flat_map split ws = ws.
Proof.
  induction 1 as [|w ws Hw _ IH]; simpl; [reflexivity|].
  now rewrite (split_word Hw), IH.
Qed.

Lemma eqb_refl (a : str) : eqb a a = true.
Proof.
  induction a as [|x a IH]; simpl; [reflexivity|].
  now rewrite N.eqb_refl.
Qed.

Lemma eqb_eq (a b : str) : eqb a b = true <-> a = b.
Proof.
  split; [|intros ->; apply eqb_refl].
  revert b. induction a as [|x a IH]; intros [|y b]; simpl; try discriminate.
  - reflexivity.
  - intros H. apply andb_true_iff in H. destruct H as [H1 H2].
    apply N.eqb_eq in H1. apply IH in H2. congruence.
Qed.

End StringFacts.

(** ** The parser *)

Section ParserFacts.

Local Abbreviation nonspace := (fun c : char => isspace c = false).

Lemma all_values_complete (t : Triplet) :
  all_values t = true -> complete t.
Proof.
  unfold all_values, complete. rewrite !andb_true_iff, !truthy_not_nil.
  tauto.
Qed.

Lemma acc_ok_nil : acc_ok [].
Proof. now left. Qed.

Lemma acc_ok_append (s token : str) :
  is_word token -> acc_ok (s ++ SPACE :: token).
Proof.
  intros [Hne Hns]. right. apply Exists_app. right. right.
  destruct token as [|c token]; [congruence|].
  left. now inversion Hns.
Qed.

Lemma acc_ok_strip (s : str) : acc_ok s -> s <> [] -> strip s <> [].
Proof.
  intros [-> | H] Hne; [congruence|].
  now apply truthy_not_nil, strip_truthy.
Qed.

Lemma emit_if_complete_ok (st : ParserState) :
  Forall complete (triplets st) -> Forall complete (emit_if_complete st).
Proof.
  intros H. unfold emit_if_complete.
  destruct (all_values (candidate st)) eqn:E; [|exact H].
  apply Forall_app. split; [exact H|].
  constructor; [now apply all_values_complete | constructor].
Qed.

(** Every flush point inside the loop keeps the emitted triplets
    complete. *)
Lemma parser_step_inv (st : ParserState) (token : str) :
  is_word token -> parser_inv st -> parser_inv (parser_step st token).
Proof.
  intros Hw [Ht Hs Hr Ho]. unfold parser_step.
  destruct (eqb token TRIPLET || eqb token RELATION).
  - destruct (truthy (relation st)); constructor; simpl;
      auto using acc_ok_nil, emit_if_complete_ok.
  - destruct (startswith token LT && endswith token GT).
    + destruct (current st); constructor; simpl; auto using acc_ok_nil;
        destruct (truthy (relation st)); auto using emit_if_complete_ok.
    + destruct (current st); constructor; simpl;
        auto using acc_ok_append.
Qed.

Lemma parser_loop_inv (tokens : list str) (st : ParserState) :
  Forall is_word tokens -> parser_inv st ->
  parser_inv (fold_left parser_step tokens st).
Proof.
  intros Hw. revert st.
  induction Hw as [|token tokens Htok _ IH]; intros st Hst; simpl.
  - exact Hst.
  - apply IH. now apply parser_step_inv.
Qed.

(** The flush at end of stream tests the raw accumulators; what it stores
    is complete all the same. *)
Lemma parser_finish_ok (st : ParserState) :
  parser_inv st -> Forall complete (parser_finish st).
Proof.
  intros [Ht Hs Hr Ho]. unfold parser_finish.
  destruct (truthy (subject st) && truthy (relation st)
            && truthy (object_ st) && truthy (object_type st)
            && truthy (subject_type st)) eqn:E; [|exact Ht].
  rewrite !andb_true_iff, !truthy_not_nil in E.
  destruct E as [[[[E1 E2] E3] E4] E5].
  apply Forall_app. split; [exact Ht|]. constructor; [|constructor].
  unfold complete, candidate; simpl.
  auto 6 using acc_ok_strip.
Qed.

Lemma parse_tokens_complete (tokens : list str) :
  Forall is_word tokens -> Forall complete (parse_tokens tokens).
Proof.
  intros Hw. apply parser_finish_ok, parser_loop_inv; [exact Hw|].
  constructor; simpl; auto using acc_ok_nil.
Qed.

End ParserFacts.

(** C1, as the specification words it: the relation would be
    "headquartered in" and the tail "Cupertino".  The parser gives
    another answer. *)
Lemma parser_example_as_specified_fails :
  extract_triplets_typed
    (u "<triplet> Apple <org> headquartered in <loc> Cupertino")
  <> Returned [mkTriplet (u "Apple") (u "org") (u "headquartered in")
                         (u "Cupertino") (u "loc")].
Proof. vm_compute. discriminate. Qed.

(** C1, amended: on the input
    "<triplet> Apple <org> headquartered in <loc> Cupertino" the parser
    returns exactly one triplet, with head "Apple", head type "org", tail
    "headquartered in", tail type "loc" and relation "Cupertino": the text
    after the first bracketed tag is the tail, the text after the second
    one is the relation. *)
Theorem parser_example :
  extract_triplets_typed
    (u "<triplet> Apple <org> headquartered in <loc> Cupertino")
  = Returned [mkTriplet (u "Apple") (u "org") (u "Cupertino")
                        (u "headquartered in") (u "loc")].
Proof. vm_compute. reflexivity. Qed.

(** C4: for every input string, every triplet the parser returns has its
    five fields non-empty, whichever flush point emitted it. *)
Theorem parser_fields_complete (text : str) :
  exists ts, extract_triplets_typed text = Returned ts
             /\ Forall complete ts.
Proof.
  unfold extract_triplets_typed.
  destruct (negb (truthy text)).
  - exists []. split; [reflexivity | constructor].
  - eexists. split; [reflexivity|].
    apply parse_tokens_complete. unfold tokenize. apply split_words.
Qed.

(** C5: the parser is total.  For every input string it returns a list of
    triplets and raises nothing; the empty string gives the empty list,
    and so does a stream of markers with no text. *)
Theorem parser_total :
  (forall text : str, exists ts, extract_triplets_typed text = Returned ts)
  /\ extract_triplets_typed [] = Returned []
  /\ extract_triplets_typed (u "<triplet> <> <> </s> <triplet>")
     = Returned [].
Proof.
  split; [|split; vm_compute; reflexivity].
  intros text. unfold extract_triplets_typed, extract_body, try_except.
  destruct (negb (truthy text)); eexists; reflexivity.
Qed.

(** ** The segmenter *)

Section SegmenterFacts.

Variable self : Extractor.

(** *** Coverage *)

Lemma flush_words (segs xs : list str) :
  flat_map split (flush segs xs) = held_words segs xs.
Proof.
  unfold held_words, flush. destruct xs as [|x xs].
  - now rewrite app_nil_r.
  - rewrite flat_map_app. f_equal.
    change (flat_map split [join [SPACE] (x :: xs)])
      with (split (join [SPACE] (x :: xs)) ++ []).
    now rewrite app_nil_r, split_join.
Qed.

Lemma word_step_words (st : WordLoop) (word : str) :
  is_word word ->
  held_words (w_segments (word_step self st word))
             (temp_segment (word_step self st word))
  = held_words (w_segments st) (temp_segment st) ++ [word].
Proof.
  intros Hw. unfold word_step.
  destruct (_ >? _)%Z; cbn [w_segments temp_segment].
  - unfold held_words at 1. rewrite flush_words. simpl.
    now rewrite app_nil_r, (split_word Hw).
  - unfold held_words. rewrite flat_map_app. simpl.
    now rewrite app_nil_r, (split_word Hw), app_assoc.
Qed.

Lemma word_loop_words (words : list str) (st : WordLoop) :
  Forall is_word words ->
  held_words (w_segments (fold_left (word_step self) words st))
             (temp_segment (fold_left (word_step self) words st))
  = held_words (w_segments st) (temp_segment st) ++ words.
Proof.
  intros Hw. revert st.
  induction Hw as [|word words Hword _ IH]; intros st; simpl.
  - now rewrite app_nil_r.
  - rewrite IH, (word_step_words st Hword), <- app_assoc. reflexivity.
Qed.

Lemma sentence_step_words (st : SentenceLoop) (sentence : str) :
  held_words (segments (sentence_step self st sentence))
             (current_segment (sentence_step self st sentence))
  = held_words (segments st) (current_segment st) ++ split sentence.
Proof.
  unfold sentence_step.
  destruct (_ >? _)%Z.
  - cbn [segments current_segment].
    unfold held_words at 1. rewrite flush_words.
    rewrite (word_loop_words _ (split_words sentence)).
    cbn [w_segments temp_segment].
    destruct (current_segment st) eqn:E; cbn [segments current_segment].
    + rewrite E. unfold held_words. simpl. now rewrite !app_nil_r.
    + unfold held_words at 1. rewrite flush_words.
      unfold held_words. simpl. now rewrite !app_nil_r.
  - destruct (_ >? _)%Z; cbn [segments current_segment].
    + unfold held_words at 1. rewrite flush_words. simpl.
      now rewrite app_nil_r.
    + unfold held_words. rewrite flat_map_app. simpl.
      now rewrite app_nil_r, app_assoc.
Qed.

Lemma sentence_loop_words (sentences : list str) (st : SentenceLoop) :
  held_words (segments (fold_left (sentence_step self) sentences st))
             (current_segment (fold_left (sentence_step self) sentences st))
  = held_words (segments st) (current_segment st)
    ++ flat_map split sentences.
Proof.
  revert st. induction sentences as [|s sentences IH]; intros st; simpl.
  - now rewrite app_nil_r.
  - rewrite IH, sentence_step_words, <- app_assoc. reflexivity.
Qed.

End SegmenterFacts.

(** C7: the segments, joined and cut at whitespace again, give the words
    of the sentences of the sentence splitter, each once and in order:
    nothing is dropped and nothing is repeated. *)
Theorem segment_document_coverage (self : Extractor) (text : str) :
  split (join [SPACE] (segment_document self text))
  = flat_map split (sent_tokenize self text).
Proof.
  rewrite split_join. unfold segment_document.
  rewrite flush_words, sentence_loop_words. reflexivity.
Qed.

(** *** Budget *)

Section BudgetFacts.

Variable self : Extractor.
Hypothesis Hsub : subadditive self.
Hypothesis Hmono : trailing_space_monotone self.

Local Abbreviation tokens := (tokens_of self).
Local Abbreviation tokens_sp := (fun w : str => tokens_of self (w ++ [SPACE])).
Local Abbreviation safe := (safe_length self).

Lemma total_app (f : str -> Z) (xs ys : list str) :
  total f (xs ++ ys) = (total f xs + total f ys)%Z.
Proof. induction xs as [|x xs IH]; simpl; [reflexivity | lia]. Qed.

Lemma tokens_join (xs : list str) :
  xs <> [] -> (tokens (join [SPACE] xs) <= total tokens xs)%Z.
Proof.
  induction xs as [|x xs IH]; intros Hne; [congruence|].
  destruct xs as [|y xs].
  - simpl. lia.
  - change (join [SPACE] (x :: y :: xs))
      with (x ++ SPACE :: join [SPACE] (y :: xs)).
    pose proof (Hsub x (join [SPACE] (y :: xs))) as H1.
    assert (H2 : (tokens (join [SPACE] (y :: xs))
                  <= total tokens (y :: xs))%Z) by (apply IH; discriminate).
    change (total tokens (x :: y :: xs))
      with (tokens x + total tokens (y :: xs))%Z.
    lia.
Qed.

Lemma total_tokens_sp (xs : list str) :
  (total tokens xs <= total tokens_sp xs)%Z.
Proof.
  induction xs as [|x xs IH]; simpl; [lia|].
  pose proof (Hmono x). lia.
Qed.

Lemma within_budget_word (w : str) : is_word w -> within_budget self w.
Proof.
  intros Hw. unfold within_budget.
  destruct (Z_le_gt_dec (tokens w) safe); [left | right; split]; auto; lia.
Qed.

Lemma flush_within_budget (segs xs : list str) :
  Forall (within_budget self) segs ->
  (xs = [] \/ within_budget self (join [SPACE] xs)) ->
  Forall (within_budget self) (flush segs xs).
Proof.
  intros Hsegs Hxs. unfold flush. destruct xs as [|x xs]; [exact Hsegs|].
  apply Forall_app. split; [exact Hsegs|].
  constructor; [|constructor].
  destruct Hxs as [Hnil | H]; [discriminate | exact H].
Qed.

Lemma word_inv_pending (st : WordLoop) :
  word_inv self st ->
  temp_segment st = []
  \/ within_budget self (join [SPACE] (temp_segment st)).
Proof.
  intros [_ Hw Hlen Hb].
  destruct (temp_segment st) as [|w ws] eqn:E; [now left | right].
  destruct Hb as [Hb | [Hb | Hb]]; [discriminate | |].
  - destruct ws; [|discriminate]. simpl.
    apply within_budget_word. now inversion Hw.
  - left. assert (Hne : w :: ws <> []) by discriminate.
    pose proof (tokens_join Hne). pose proof (total_tokens_sp (w :: ws)).
    lia.
Qed.

Lemma word_step_inv (st : WordLoop) (word : str) :
  is_word word -> word_inv self st -> word_inv self (word_step self st word).
Proof.
  intros Hword Hst. pose proof (word_inv_pending Hst) as Hp.
  destruct Hst as [Hs Hw Hlen Hb]. unfold word_step.
  destruct (_ >? _)%Z eqn:E; constructor; cbn [w_segments temp_segment
    temp_length].
  - now apply flush_within_budget.
  - now constructor.
  - simpl. lia.
  - right. now left.
  - exact Hs.
  - apply Forall_app. split; [exact Hw | now constructor].
  - rewrite total_app, Hlen. simpl. lia.
  - right. right. lia.
Qed.

Lemma word_loop_inv (words : list str) (st : WordLoop) :
  Forall is_word words -> word_inv self st ->
  word_inv self (fold_left (word_step self) words st).
Proof.
  intros Hw. revert st.
  induction Hw as [|word words Hword _ IH]; intros st Hst; simpl.
  - exact Hst.
  - apply IH. now apply word_step_inv.
Qed.

Lemma sentence_inv_pending (st : SentenceLoop) :
  sentence_inv self st ->
  current_segment st = []
  \/ within_budget self (join [SPACE] (current_segment st)).
Proof.
  intros [_ Hlen Hb].
  destruct (current_segment st) as [|s ss] eqn:E; [now left | right].
  destruct Hb as [Hb | Hb]; [discriminate|].
  left. assert (Hne : s :: ss <> []) by discriminate.
  pose proof (tokens_join Hne). lia.
Qed.

Lemma sentence_step_inv (st : SentenceLoop) (sentence : str) :
  sentence_inv self st -> sentence_inv self (sentence_step self st sentence).
Proof.
  intros Hst. pose proof (sentence_inv_pending Hst) as Hp.
  destruct Hst as [Hs Hlen Hb]. unfold sentence_step.
  destruct (tokens sentence >? safe)%Z eqn:E1.
  - set (flushed := match current_segment st with
                    | [] => st
                    | _ :: _ => _
                    end).
    assert (Hf : Forall (within_budget self) (segments flushed)
                 /\ current_segment flushed = []
                 /\ current_length flushed = 0%Z).
    { subst flushed. destruct (current_segment st) eqn:Ec.
      - simpl in Hlen. auto.
      - cbn [segments current_segment current_length].
        split; [|now split]. now apply flush_within_budget. }
    destruct Hf as [Hf1 [Hf2 Hf3]].
    assert (Hw : word_inv self (fold_left (word_step self) (split sentence)
                   (mkWordLoop (segments flushed) [] 0%Z))).
    { apply word_loop_inv; [apply split_words|].
      constructor; simpl; auto. }
    constructor; cbn [segments current_segment current_length].
    + apply flush_within_budget; [apply Hw | now apply word_inv_pending].
    + now rewrite Hf2, Hf3.
    + now left.
  - destruct (current_length st + tokens sentence >? safe)%Z eqn:E2;
      constructor; cbn [segments current_segment current_length].
    + now apply flush_within_budget.
    + simpl. lia.
    + right. lia.
    + exact Hs.
    + rewrite total_app, Hlen. simpl. lia.
    + right. lia.
Qed.

Lemma sentence_loop_inv (sentences : list str) (st : SentenceLoop) :
  sentence_inv self st ->
  sentence_inv self (fold_left (sentence_step self) sentences st).
Proof.
  revert st. induction sentences as [|s sentences IH]; intros st Hst.
  - exact Hst.
  - simpl. apply IH. now apply sentence_step_inv.
Qed.

Lemma segment_document_within_budget (text : str) :
  Forall (within_budget self) (segment_document self text).
Proof.
  unfold segment_document.
  assert (H : sentence_inv self (fold_left (sentence_step self)
                (sent_tokenize self text) (mkSentenceLoop [] [] 0%Z))).
  { apply sentence_loop_inv. constructor; simpl; auto. }
  apply flush_within_budget; [apply H | now apply sentence_inv_pending].
Qed.

End BudgetFacts.

(** *** The budget claim *)

(** C6, as the specification words it, for every tokenizer: with one
    token per character and a budget of six tokens, the sentences "Hi."
    and "Yo." count three tokens each and are packed together, and the
    segment "Hi. Yo." is seven tokens long and is not a single word. *)
Lemma segment_budget_fails_for_character_tokens :
  ~ (forall s : str,
       In s (segment_document chars_extractor (u "Hi. Yo.")) ->
       within_budget chars_extractor s).
Proof.
  intros H. specialize (H (u "Hi. Yo.")).
  destruct H as [H | [[_ H] _]].
  - vm_compute. now left.
  - vm_compute in H. now apply H.
  - inversion H as [|c l Hc Hl]; subst.
    inversion Hl as [|c1 l1 Hc1 Hl1]; subst.
    inversion Hl1 as [|c2 l2 Hc2 Hl2]; subst.
    inversion Hl2 as [|c3 l3 Hc3 Hl3]; subst.
    vm_compute in Hc3. discriminate.
Qed.

(** C6, amended: when the token length of two strings joined by a space
    is at most the sum of their token lengths, and removing a trailing
    space does not add tokens, every segment of every text is within the
    budget, or is a single word that by itself exceeds it. *)
Theorem segment_budget (self : Extractor) (text s : str) :
  subadditive self -> trailing_space_monotone self ->
  In s (segment_document self text) -> within_budget self s.
Proof.
  intros Hsub Hmono Hin.
  pose proof (segment_document_within_budget Hsub Hmono text) as H.
  rewrite Forall_forall in H. now apply H.
Qed.

Lemma words_extractor_subadditive : subadditive words_extractor.
Proof.
  intros a b. unfold tokens_of; simpl.
  rewrite split_app_space, length_app. lia.
Qed.

Lemma words_extractor_monotone : trailing_space_monotone words_extractor.
Proof.
  intros w. unfold tokens_of; simpl.
  rewrite split_app_space, length_app. lia.
Qed.

Lemma segment_budget_witness :
  within_budget words_extractor (u "Hi there").
Proof.
  apply (@segment_budget words_extractor
           (u "Hi there all. Yo. A b c d e f. G.") (u "Hi there")).
  - exact words_extractor_subadditive.
  - exact words_extractor_monotone.
  - vm_compute. now left.
Defined.

(** ** One inference call *)

(** [process_segment] never lets an exception out. *)
Lemma process_segment_returns (self : Extractor) (segment src_lang : str) :
  exists ts, fst (process_segment self segment src_lang) = Returned ts.
Proof.
  unfold process_segment.
  destruct (process_segment_body self segment src_lang) as [[ts|] calls];
    eexists; reflexivity.
Qed.

(** A failing inference call gives the empty list. *)
Lemma process_segment_failure (self : Extractor) (segment src_lang : str) :
  extractor self segment src_lang = Raised ->
  fst (process_segment self segment src_lang) = Returned [].
Proof.
  intros H. unfold process_segment, process_segment_body.
  destruct (_ >? _)%Z; [reflexivity|]. now rewrite H.
Qed.

(** C10: a segment whose token length exceeds the safe budget gets the
    empty list of triplets, and the inference capability is not called
    for it; whatever the document, a work item with such a segment adds
    no triplet to the result of the document. *)
Theorem process_segment_over_budget (self : Extractor)
  (segment src_lang : str) :
  (tokens_of self segment > safe_length self)%Z ->
  process_segment self segment src_lang = (Returned [], [])
  /\ forall doc_id,
       item_triplets self (mkWorkItem doc_id segment src_lang) = [].
Proof.
  intros H.
  assert (E : process_segment self segment src_lang = (Returned [], [])).
  { unfold process_segment, process_segment_body.
    replace (tokens_of self segment >? safe_length self)%Z with true
      by (symmetry; apply Z.gtb_lt; lia).
    reflexivity. }
  split; [exact E|]. intros doc_id. unfold item_triplets. simpl.
  now rewrite E.
Qed.

Lemma process_segment_over_budget_witness :
  process_segment fixed_extractor (u "Hi there a b c") (u "en_XX")
  = (Returned [], [])
  /\ forall doc_id,
       item_triplets fixed_extractor
         (mkWorkItem doc_id (u "Hi there a b c") (u "en_XX")) = [].
Proof.
  apply process_segment_over_budget. vm_compute. reflexivity.
Defined.

(** ** The pipeline *)

(** The state after a step, read off the equation of the step. *)
Ltac stepped H := inversion H; subst; clear H; simpl.

(** The step that [next_label] picks is taken by the main thread. *)
Ltac main_steps :=
  eexists; split; [reflexivity|]; split; [discriminate|].

(** *** Safety *)

Section PipelineSafety.

Variable self : Extractor.

Lemma item_triplets_returned (item : WorkItem) (ts : list Triplet) :
  fst (process_segment self (wi_segment item) (wi_src_lang item))
  = Returned ts ->
  item_triplets self item = ts.
Proof. unfold item_triplets. now intros ->. Qed.

Lemma process_segment_not_raised (segment src_lang : str) :
  fst (process_segment self segment src_lang) <> Raised.
Proof.
  destruct (process_segment_returns self segment src_lang) as [ts H].
  congruence.
Qed.

Lemma after_batch_items (batch : list WorkItem) :
  worker_items (after_batch batch) = batch.
Proof. now destruct batch. Qed.

Lemma after_batch_in_loop (batch : list WorkItem) :
  in_loop (after_batch batch).
Proof. now destruct batch. Qed.

(** A step of the worker moves work along and changes nothing else. *)
Lemma worker_step_frame (st st' : State) (to_put : list WorkItem) :
  worker_step self st = Some st' ->
  (forall ids, worker st <> WExcept ids) ->
  main st' = main st /\ yielded st' = yielded st
  /\ stop_event st' = stop_event st
  /\ in_flight self st' to_put = in_flight self st to_put
  /\ in_flight_count st' to_put = in_flight_count st to_put
  /\ (forall id, tagged id st to_put -> tagged id st' to_put).
Proof.
  intros Hstep Hne. unfold worker_step in Hstep.
  unfold in_flight, in_flight_count, tagged, pending_items.
  destruct st as [inq outq stop w m y]; simpl in *.
  destruct w as [| | |batch|batch| |rest ids|ids|]; try discriminate.
  - (* WHead *)
    stepped Hstep.
    destruct stop; simpl; auto 10.
  - (* WHeadEmpty *)
    stepped Hstep.
    destruct inq; simpl; auto 10.
  - (* WInner *)
    stepped Hstep.
    assert (E : worker_items
                  (if (Z.of_nat (length batch) <? batch_size self)%Z
                   then match inq with
                        | [] => after_batch batch
                        | _ :: _ => WGet batch
                        end
                   else after_batch batch) = batch).
    { destruct (_ <? _)%Z; [destruct inq|]; simpl;
        auto using after_batch_items. }
    rewrite E. auto 10.
  - (* WGet *)
    destruct inq as [|item inq]; stepped Hstep.
    + rewrite after_batch_items. auto 10.
    + rewrite <- !app_assoc. simpl. auto 10.
  - (* WStopCheck *)
    stepped Hstep.
    destruct stop; simpl; auto 10.
  - (* WProc *)
    destruct rest as [|item rest].
    + stepped Hstep. auto 10.
    + destruct (fst (process_segment self (wi_segment item)
                                     (wi_src_lang item))) as [ts|] eqn:E.
      * stepped Hstep.
        rewrite (item_triplets_returned _ E).
        rewrite flat_map_app, !length_app. simpl.
        rewrite app_nil_r, <- app_assoc.
        do 4 (split; [reflexivity|]). split; [lia|].
        intros d [H1 H2]. split.
        -- apply Forall_app. split; [exact H1|].
           constructor; [|constructor]. simpl. now inversion H2.
        -- now inversion H2.
      * now apply process_segment_not_raised in E.
  - (* WExcept *)
    now destruct (Hne ids).
Qed.

Lemma worker_step_in_loop (st st' : State) :
  worker_step self st = Some st' ->
  stop_event st = false -> in_loop (worker st) -> in_loop (worker st').
Proof.
  intros Hstep Hstop Hw. unfold worker_step in Hstep.
  destruct st as [inq outq stop w m y]; simpl in *; subst stop.
  destruct w as [| | |batch|batch| |rest ids|ids|]; try contradiction;
    try (stepped Hstep; exact I).
  - stepped Hstep.
    destruct (_ <? _)%Z; [destruct inq|]; simpl;
      auto using after_batch_in_loop.
  - destruct inq; stepped Hstep;
      auto using after_batch_in_loop.
  - destruct rest as [|item rest].
    + stepped Hstep; exact I.
    + destruct (fst (process_segment self (wi_segment item)
                                     (wi_src_lang item))) as [ts|] eqn:E.
      * stepped Hstep; exact I.
      * now apply process_segment_not_raised in E.
Qed.

Lemma worker_step_stopping (st st' : State) :
  worker_step self st = Some st' ->
  stopping (worker st) -> stopping (worker st').
Proof.
  intros Hstep Hw. unfold worker_step in Hstep.
  destruct st as [inq outq stop w m y]; simpl in *.
  destruct w as [| | |batch|batch| |rest ids|ids|]; try contradiction;
    try discriminate;
    try (stepped Hstep;
         repeat match goal with
                | |- context [if ?b then _ else _] => destruct b
                | |- context [match ?l with [] => _ | _ :: _ => _ end] =>
                    destruct l
                end; simpl; exact I).
  - stepped Hstep.
    destruct (_ <? _)%Z; [destruct inq|]; simpl; destruct batch; exact I.
  - destruct inq; stepped Hstep;
      try destruct batch; exact I.
  - destruct rest as [|item rest].
    + stepped Hstep; exact I.
    + destruct (fst (process_segment self (wi_segment item)
                                     (wi_src_lang item))) as [ts|] eqn:E.
      * stepped Hstep; exact I.
      * now apply process_segment_not_raised in E.
Qed.

Lemma idle_count (st : State) : idle st <-> in_flight_count st [] = 0.
Proof.
  unfold idle, in_flight_count, pending_items.
  rewrite app_nil_r, length_app. split.
  - intros [-> [-> ->]]. reflexivity.
  - intros H.
    destruct (input_queue st), (output_queue st), (worker_items (worker st));
      simpl in H; auto; lia.
Qed.

Lemma idle_in_flight (st : State) : idle st -> in_flight self st [] = [].
Proof.
  unfold idle, in_flight, pending_items. now intros [-> [-> ->]].
Qed.

Lemma in_loop_not_except (w : WorkerPc) :
  in_loop w -> forall ids, w <> WExcept ids.
Proof. destruct w; simpl; intros H x; try contradiction; discriminate. Qed.

Lemma stopping_not_except (w : WorkerPc) :
  stopping w -> forall ids, w <> WExcept ids.
Proof. destruct w; simpl; intros H x; try contradiction; discriminate. Qed.

Lemma in_loop_stopping (w : WorkerPc) : in_loop w -> stopping w.
Proof. destruct w; simpl; auto. Qed.

Variable docs0 : list Document.

Lemma worker_step_inv (st st' : State) :
  pipeline_inv self docs0 st -> worker_step self st = Some st' ->
  pipeline_inv self docs0 st'.
Proof.
  intros [Ht Hc Hr] Hstep.
  assert (Hne : forall ids, worker st <> WExcept ids).
  { destruct (main st);
      [ destruct Ht as [Ht _]; intros x; rewrite Ht; discriminate
      | apply in_loop_not_except, Ht ..
      | apply stopping_not_except, Ht
      | intros x; rewrite Ht; discriminate ]. }
  assert (Hframe := fun to_put => worker_step_frame st to_put Hstep Hne).
  destruct (Hframe []) as [Hm [Hy [Hs _]]].
  constructor; rewrite Hm.
  - destruct (main st);
      [ destruct Ht as [Ht1 _]; unfold worker_step in Hstep;
        now rewrite Ht1 in Hstep
      | destruct Ht as [Ht1 Ht2]; rewrite Hs; split;
        [exact Ht1 | exact (worker_step_in_loop st Hstep Ht1 Ht2)] ..
      | destruct Ht as [Ht1 Ht2]; rewrite Hs; split;
        [exact Ht1 | exact (worker_step_stopping st Hstep Ht2)]
      | unfold worker_step in Hstep; now rewrite Ht in Hstep ].
  - destruct (current_doc (main st)) as [[[[ctx acc] k] to_put]|].
    + destruct (Hframe to_put) as [_ [_ [_ [_ [Hn Htag]]]]].
      rewrite Hn. destruct Hc as [Hc1 Hc2]. auto.
    + apply idle_count. destruct (Hframe []) as [_ [_ [_ [_ [Hn _]]]]].
      rewrite Hn. now apply idle_count.
  - rewrite Hy. destruct (current_doc (main st)) as [[[[ctx acc] k] to_put]|].
    + destruct (Hframe to_put) as [_ [_ [_ [Hf _]]]]. now rewrite Hf.
    + exact Hr.
Qed.

Lemma expected_cons (doc : Document) (docs : list Document) :
  expected self (doc :: docs)
  = if has_text doc then expected_result self doc :: expected self docs
    else expected self docs.
Proof. unfold expected. simpl. now destruct (has_text doc). Qed.

Lemma work_items_tagged (doc : Document) :
  Forall (fun i => wi_doc_id i = d_id doc) (work_items self doc).
Proof.
  unfold work_items. apply Forall_forall. intros i Hi.
  apply in_map_iff in Hi. destruct Hi as [seg [<- _]]. reflexivity.
Qed.

Lemma main_step_inv (st st' : State) :
  pipeline_inv self docs0 st -> main_step self st = Some st' ->
  pipeline_inv self docs0 st'.
Proof.
  intros [Ht Hc Hr] Hstep. unfold main_step in Hstep.
  destruct st as [inq outq stop w m y]; simpl in *.
  destruct m as [docs|docs|ctx items docs|ctx acc k docs|ctx acc k docs| | |];
    simpl in *.
  - (* MStart *)
    destruct Ht as [-> ->]. inversion Hstep; subst; clear Hstep.
    destruct Hc as [Hc1 [Hc2 _]]. simpl in *. subst.
    constructor; simpl; auto. now repeat split.
  - (* MNext *)
    destruct docs as [|doc docs].
    + inversion Hstep; subst; clear Hstep. constructor; simpl; auto.
    + rewrite expected_cons in Hr. unfold has_text in Hr.
      destruct (truthy (strip (d_text doc))); simpl in Hstep;
        inversion Hstep; subst; clear Hstep; constructor; simpl; auto.
      * destruct Hc as [Hc1 [Hc2 Hc3]]. simpl in *. subst.
        unfold tagged, in_flight_count, pending_items. simpl.
        rewrite Hc3. simpl. split; [split|]; auto using work_items_tagged.
      * destruct Hc as [Hc1 [Hc2 Hc3]]. simpl in *. subst.
        unfold in_flight, pending_items. simpl. rewrite Hc3. exact Hr.
  - (* MPut *)
    destruct items as [|item items].
    + inversion Hstep; subst; clear Hstep. constructor; simpl; auto.
    + destruct (queue_full self inq); [discriminate|].
      inversion Hstep; subst; clear Hstep.
      unfold tagged, in_flight, in_flight_count, pending_items in *.
      simpl in *.
      constructor; simpl; auto;
        unfold tagged, in_flight, in_flight_count, pending_items; simpl;
        rewrite <- !app_assoc; simpl; auto.
  - (* MCollect *)
    destruct (k <? c_num_segments ctx) eqn:Ek.
    + destruct outq as [|r outq].
      * inversion Hstep; subst; clear Hstep. constructor; simpl; auto.
      * inversion Hstep; subst; clear Hstep.
        unfold tagged, in_flight, in_flight_count, pending_items in *.
        simpl in *. destruct Hc as [[Hc1 Hc2] Hc3].
        inversion Hc1 as [|r0 l0 Hr0 Hl0]; subst.
        rewrite Hr0, eqb_refl. simpl.
        constructor; simpl; auto;
          unfold tagged, in_flight, in_flight_count, pending_items; simpl.
        -- split; [split|]; auto. lia.
        -- rewrite <- Hr, <- !app_assoc. reflexivity.
    + apply Nat.ltb_ge in Ek.
      inversion Hstep; subst; clear Hstep.
      destruct Hc as [Hc1 Hc2].
      assert (Hidle : idle (mkState inq outq stop w
                              (MCollect ctx acc k docs) y)).
      { apply idle_count. lia. }
      constructor; simpl; auto.
      rewrite (idle_in_flight Hidle), app_nil_r in Hr.
      rewrite <- Hr, <- app_assoc. reflexivity.
  - (* MSleep *)
    inversion Hstep; subst; clear Hstep. constructor; simpl; auto.
  - (* MFinally *)
    inversion Hstep; subst; clear Hstep. constructor; simpl; auto.
    destruct Ht as [_ Ht]. split; auto using in_loop_stopping.
  - (* MJoin *)
    destruct Ht as [Hs Hw].
    destruct w; try discriminate; try contradiction.
    inversion Hstep; subst; clear Hstep. constructor; simpl; auto.
  - discriminate.
Qed.

Lemma initial_inv : pipeline_inv self docs0 (initial docs0).
Proof.
  constructor; simpl; auto.
  - now repeat split.
Qed.

Lemma run_inv (schedule : list Label) (st st' : State) :
  cancel_free schedule -> pipeline_inv self docs0 st ->
  run self schedule st = Some st' -> pipeline_inv self docs0 st'.
Proof.
  intros Hcf. revert st.
  induction Hcf as [|l schedule Hl _ IH]; intros st Hinv Hrun; simpl in Hrun.
  - now inversion Hrun; subst.
  - destruct (step self l st) as [st1|] eqn:E; [|discriminate].
    apply (IH st1); [|exact Hrun].
    destruct l; simpl in E;
      eauto using worker_step_inv, main_step_inv. congruence.
Qed.

End PipelineSafety.

(** *** Progress *)

Section PipelineProgress.

Variable self : Extractor.
Hypothesis Hbatch : (0 < batch_size self)%Z.

Lemma worker_progress_running (st : State) :
  stop_event st = false -> in_loop (worker st) ->
  worker_items (worker st) <> [] \/ input_queue st <> [] ->
  exists st', worker_step self st = Some st'
              /\ steps_left self st' < steps_left self st.
Proof.
  intros Hstop Hw Hwork. unfold worker_step, steps_left.
  destruct st as [inq outq stop w m y]; simpl in *; subst stop.
  destruct w as [| | |batch|batch| |rest ids|ids|]; try contradiction;
    simpl in *.
  - eexists; split; [reflexivity|]. simpl. lia.
  - eexists; split; [reflexivity|]. simpl.
    destruct (Z.of_nat (length batch) <? batch_size self)%Z eqn:E.
    + destruct inq as [|item inq]; simpl; [|lia].
      destruct batch; simpl; [|lia]. destruct Hwork; congruence.
    + apply Z.ltb_ge in E. destruct batch; simpl in *; lia.
  - destruct inq as [|item inq]; eexists; (split; [reflexivity|]); simpl.
    + destruct batch; simpl; [|lia]. destruct Hwork; congruence.
    + rewrite length_app. simpl. lia.
  - eexists; split; [reflexivity|]. simpl. lia.
  - destruct rest as [|item rest].
    + eexists; split; [reflexivity|]. simpl. lia.
    + destruct (fst (process_segment self (wi_segment item)
                                     (wi_src_lang item))) as [ts|] eqn:E.
      * eexists; split; [reflexivity|]. simpl. rewrite length_app.
        simpl. lia.
      * now apply process_segment_not_raised in E.
Qed.

Lemma worker_progress_stopping (st : State) :
  stop_event st = true -> stopping (worker st) -> idle st ->
  worker st <> WExit ->
  exists st', worker_step self st = Some st'
              /\ steps_left self st' < steps_left self st.
Proof.
  intros Hstop Hw [Hi [Ho Hh]] Hne. unfold worker_step, steps_left.
  destruct st as [inq outq stop w m y]; simpl in *; subst.
  destruct w as [| | |batch|batch| |rest ids|ids|]; try contradiction;
    try congruence; simpl in *; subst;
    try (eexists; split; [reflexivity|]; simpl; lia).
  eexists; split; [reflexivity|]. simpl.
  replace (0 <? batch_size self)%Z with true
    by (symmetry; apply Z.ltb_lt; lia).
  simpl. lia.
Qed.

Variable docs0 : list Document.

Lemma queue_full_not_nil (q : list WorkItem) :
  queue_full self q = true -> q <> [].
Proof.
  unfold queue_full. intros H Hq. subst q.
  apply andb_true_iff in H. destruct H as [H1 H2].
  apply Z.ltb_lt in H1. apply Z.leb_le in H2. simpl in H2. lia.
Qed.

(** Every state of the call but the last has a step that brings the
    end nearer. *)
Lemma progress (st : State) :
  pipeline_inv self docs0 st -> main st <> MDone ->
  exists st', step self (next_label self st) st = Some st'
              /\ next_label self st <> Cancel
              /\ steps_left self st' < steps_left self st.
Proof.
  intros [Ht Hc Hr] Hne. clear Hr.
  destruct st as [inq outq stop w m y].
  unfold next_label; simpl in *.
  destruct m as [docs|docs|ctx items docs|ctx acc k docs
                |ctx acc k docs| | |]; simpl in Ht, Hc.
  - (* MStart *)
    destruct Ht as [-> ->].
    main_steps.
    unfold steps_left. simpl. lia.
  - (* MNext *)
    destruct Ht as [-> Hw]. unfold step, main_step. simpl.
    destruct docs as [|doc docs].
    + main_steps.
      unfold steps_left. simpl. lia.
    + unfold steps_left.
      destruct (truthy (strip (d_text doc))) eqn:E; simpl negb; cbv iota;
        main_steps;
        cbn [main worker stop_event input_queue output_queue set_main
             main_cost];
        change (docs_cost self (doc :: docs))
          with (doc_cost self doc + docs_cost self docs);
        unfold doc_cost, has_text; rewrite E; lia.
  - (* MPut *)
    destruct Ht as [-> Hw].
    destruct items as [|item items].
    + main_steps.
      unfold steps_left. simpl. lia.
    + destruct (queue_full self inq) eqn:Ef.
      * destruct (@worker_progress_running
                    (mkState inq outq false w
                             (MPut ctx (item :: items) docs) y))
          as [st' [H1 H2]]; auto.
        { right. now apply queue_full_not_nil. }
        exists st'. repeat split; auto. discriminate.
      * unfold step, main_step. simpl. rewrite Ef.
        main_steps.
        unfold steps_left. simpl. rewrite length_app. simpl. lia.
  - (* MCollect *)
    destruct Ht as [-> Hw]. destruct Hc as [_ Hn].
    destruct (k <? c_num_segments ctx) eqn:Ek.
    + destruct outq as [|r outq].
      * apply Nat.ltb_lt in Ek.
        destruct (@worker_progress_running
                    (mkState inq [] false w (MCollect ctx acc k docs) y))
          as [st' [H1 H2]]; auto.
        { unfold in_flight_count, pending_items in Hn. simpl in *.
          rewrite app_nil_r, length_app in Hn.
          destruct (worker_items w); [right | left; discriminate].
          destruct inq; [simpl in Hn; lia | discriminate]. }
        exists st'. repeat split; auto. discriminate.
      * unfold step, main_step. simpl. rewrite Ek.
        main_steps.
        unfold steps_left. simpl. lia.
    + unfold step, main_step. simpl. rewrite Ek.
      main_steps.
      unfold steps_left. simpl. lia.
  - (* MSleep *)
    main_steps.
    unfold steps_left. simpl. lia.
  - (* MFinally *)
    destruct Ht as [-> Hw].
    main_steps.
    unfold steps_left. simpl. destruct w; simpl; lia.
  - (* MJoin *)
    destruct Ht as [-> Hw].
    destruct w eqn:Ew; try contradiction;
      try (destruct (@worker_progress_stopping
                       (mkState inq outq true w MJoin y))
             as [st' [H1 H2]]; subst w; simpl; auto; try discriminate;
           exists st'; repeat split; auto; discriminate).
    main_steps.
    unfold steps_left. simpl. lia.
  - congruence.
Qed.

(** From every state of an uncancelled call the call can be run to its
    end. *)
Lemma can_finish (n : nat) (st : State) :
  steps_left self st <= n -> pipeline_inv self docs0 st ->
  exists schedule st',
    cancel_free schedule /\ run self schedule st = Some st'
    /\ main st' = MDone.
Proof.
  revert st. induction n as [|n IH]; intros st Hn Hinv.
  - assert (Hd : main st = MDone).
    { destruct (main st) eqn:Em; try reflexivity;
        destruct (progress Hinv) as [st' [_ [_ H]]];
        try (rewrite Em; discriminate); lia. }
    exists [], st. repeat split; auto. constructor.
  - destruct (main st) eqn:Em;
      try (destruct (progress Hinv) as [st1 [Hstep [Hl Hlt]]];
           [rewrite Em; discriminate|];
           destruct (IH st1) as [schedule [st' [Hcf [Hrun Hdone]]]];
           [ lia
           | destruct (next_label self st); simpl in Hstep;
             eauto using worker_step_inv, main_step_inv; congruence
           | exists (next_label self st :: schedule), st';
             repeat split; auto; [now constructor | simpl; now rewrite Hstep]
           ]).
    exists [], st. repeat split; auto. constructor.
Qed.

End PipelineProgress.

(** ** The correlation loop *)

Section CorrelateFacts.

Variable doc_id : str.
Variable n : nat.

Lemma count_tagged_cons (p : option SegmentResult)
  (polls : list (option SegmentResult)) :
  count_tagged doc_id (p :: polls)
  = (if is_tagged doc_id p then 1 else 0) + count_tagged doc_id polls.
Proof. unfold count_tagged. simpl. now destruct (is_tagged doc_id p). Qed.

Lemma collect_one_tagged (acc : list Triplet) (k : nat)
  (p : option SegmentResult) :
  collect_one doc_id (acc, k) p
  = if is_tagged doc_id p
    then (acc ++ tagged_triplets doc_id [p], S k)
    else (acc, k).
Proof.
  unfold collect_one, tagged_triplets. destruct p as [r|]; simpl; auto.
  destruct (eqb (sr_doc_id r) doc_id); simpl; [|reflexivity].
  now rewrite app_nil_r.
Qed.

Lemma tagged_triplets_cons (p : option SegmentResult)
  (polls : list (option SegmentResult)) :
  tagged_triplets doc_id (p :: polls)
  = tagged_triplets doc_id [p] ++ tagged_triplets doc_id polls.
Proof.
  unfold tagged_triplets. simpl.
  destruct (is_tagged doc_id p); simpl; [|reflexivity].
  now rewrite app_nil_r.
Qed.

(** With fewer than [n] results of the document among the polls, the loop
    is still waiting. *)
Lemma correlate_waiting (polls : list (option SegmentResult))
  (acc : list Triplet) (k : nat) :
  k + count_tagged doc_id polls < n ->
  correlate doc_id n acc k polls = None.
Proof.
  revert acc k. induction polls as [|p polls IH]; intros acc k H; simpl.
  - unfold count_tagged in H. simpl in H.
    replace (k <? n) with true by (symmetry; apply Nat.ltb_lt; lia).
    reflexivity.
  - rewrite count_tagged_cons in H.
    replace (k <? n) with true by (symmetry; apply Nat.ltb_lt; lia).
    rewrite collect_one_tagged.
    destruct (is_tagged doc_id p); simpl; apply IH; lia.
Qed.

(** With [n] of them or more, the loop ends on the shortest prefix of the
    polls that holds [n] results of the document. *)
Lemma correlate_yields (polls : list (option SegmentResult))
  (acc : list Triplet) (k : nat) :
  n <= k + count_tagged doc_id polls ->
  exists seen rest,
    polls = seen ++ rest
    /\ correlate doc_id n acc k polls
       = Some (acc ++ tagged_triplets doc_id seen, rest)
    /\ k + count_tagged doc_id seen = Nat.max n k
    /\ (forall pre post, seen = pre ++ post -> post <> [] ->
        k + count_tagged doc_id pre < n).
Proof.
  revert acc k. induction polls as [|p polls IH]; intros acc k H.
  - unfold count_tagged in H. simpl in H.
    exists [], []. simpl.
    replace (k <? n) with false by (symmetry; apply Nat.ltb_ge; lia).
    rewrite app_nil_r. repeat split; auto; [unfold count_tagged; simpl; lia|].
    intros pre post E. destruct pre, post; simpl in E; congruence.
  - simpl. destruct (k <? n) eqn:Ek.
    + apply Nat.ltb_lt in Ek. rewrite count_tagged_cons in H.
      rewrite collect_one_tagged.
      destruct (is_tagged doc_id p) eqn:Et; simpl.
      * destruct (IH (acc ++ tagged_triplets doc_id [p]) (S k))
          as [seen [rest [E1 [E2 [E3 E4]]]]]; [lia|].
        exists (p :: seen), rest. rewrite E2, (tagged_triplets_cons p seen).
        rewrite count_tagged_cons, Et, <- app_assoc, E1.
        repeat split; auto; [lia|].
        intros pre post E Hne. destruct pre as [|q pre].
        -- unfold count_tagged. simpl. lia.
        -- simpl in E. inversion E; subst.
           rewrite count_tagged_cons, Et.
           specialize (E4 pre post eq_refl Hne). lia.
      * destruct (IH acc k) as [seen [rest [E1 [E2 [E3 E4]]]]]; [lia|].
        assert (Hp : tagged_triplets doc_id [p] = [])
          by (unfold tagged_triplets; simpl; now rewrite Et).
        exists (p :: seen), rest.
        rewrite E2, (tagged_triplets_cons p seen), Hp.
        rewrite count_tagged_cons, Et, E1. simpl.
        repeat split; auto.
        intros pre post E Hne. destruct pre as [|q pre].
        -- unfold count_tagged. simpl. lia.
        -- simpl in E. inversion E; subst.
           rewrite count_tagged_cons, Et.
           specialize (E4 pre post eq_refl Hne). lia.
    + apply Nat.ltb_ge in Ek. exists [], (p :: polls). simpl.
      rewrite app_nil_r. repeat split; auto; [unfold count_tagged; simpl; lia|].
      intros pre post E. destruct pre, post; simpl in E; congruence.
Qed.

(** A result of another document that is polled is dropped: the loop goes
    on as if it had not been there. *)
Lemma correlate_foreign (r : SegmentResult)
  (polls : list (option SegmentResult)) (acc : list Triplet) (k : nat) :
  sr_doc_id r <> doc_id -> k < n ->
  correlate doc_id n acc k (Some r :: polls)
  = correlate doc_id n acc k polls.
Proof.
  intros Hr Hk. simpl.
  replace (k <? n) with true by (symmetry; apply Nat.ltb_lt; lia).
  destruct (eqb (sr_doc_id r) doc_id) eqn:E; [|reflexivity].
  now apply eqb_eq in E.
Qed.

End CorrelateFacts.

(** ** The pipeline as a whole *)

Lemma flat_map_In_nil {A B : Type} (f : A -> list B) (l : list A) :
  (forall x, In x l -> f x = []) -> flat_map f l = [].
Proof.
  intros H. induction l as [|x l IH]; simpl; [reflexivity|].
  rewrite H by now left. apply IH. intros y Hy. apply H. now right.
Qed.

(** A document whose inference calls all fail is to get the result with
    no triplet, whatever the calls of the other documents do. *)
Lemma expected_result_failing (self : Extractor) (doc : Document) :
  inference_fails self doc ->
  expected_result self doc = empty_result self doc.
Proof.
  intros Hfail.
  unfold expected_result, result_of, ctx_of, empty_result. simpl.
  rewrite flat_map_In_nil.
  - unfold work_items. now rewrite length_map.
  - intros item Hin. unfold work_items in Hin.
    apply in_map_iff in Hin. destruct Hin as [segment [<- Hin]].
    unfold item_triplets, process_segment, process_segment_body. simpl.
    destruct (tokens_of self segment >? safe_length self)%Z eqn:E;
      [reflexivity|].
    rewrite (Hfail segment Hin); [reflexivity|].
    rewrite Z.gtb_ltb in E. now apply Z.ltb_ge.
Qed.

Lemma done_results (self : Extractor) (docs : list Document) (st : State) :
  pipeline_inv self docs st -> main st = MDone ->
  yielded st = expected self docs.
Proof.
  intros [_ _ Hr] Hdone. rewrite Hdone in Hr. simpl in Hr.
  now rewrite app_nil_r in Hr.
Qed.

(** What a call has yielded is always the beginning of what it is to
    yield. *)
Lemma reachable_prefix (self : Extractor) (docs : list Document)
  (schedule : list Label) (st : State) :
  cancel_free schedule -> run self schedule (initial docs) = Some st ->
  exists later, yielded st ++ later = expected self docs.
Proof.
  intros Hcf Hrun.
  destruct (run_inv Hcf (initial_inv self docs) Hrun) as [_ _ Hr].
  eexists. exact Hr.
Qed.

Lemma finished_run_results (self : Extractor) (docs : list Document)
  (schedule : list Label) (st : State) :
  cancel_free schedule -> run self schedule (initial docs) = Some st ->
  main st = MDone -> yielded st = expected self docs.
Proof.
  intros Hcf Hrun. apply done_results.
  exact (run_inv Hcf (initial_inv self docs) Hrun).
Qed.

(** From every state a call reaches it can be run to its end, and at the
    end every document has its result. *)
Lemma reachable_can_finish (self : Extractor) (docs : list Document)
  (schedule : list Label) (st : State) :
  (0 < batch_size self)%Z ->
  cancel_free schedule -> run self schedule (initial docs) = Some st ->
  exists schedule' st',
    cancel_free schedule' /\ run self schedule' st = Some st'
    /\ main st' = MDone /\ yielded st' = expected self docs.
Proof.
  intros Hbatch Hcf Hrun.
  pose proof (run_inv Hcf (initial_inv self docs) Hrun) as Hinv.
  destruct (@can_finish self Hbatch docs (steps_left self st) st
              (le_n _) Hinv) as [schedule' [st' [Hcf' [Hrun' Hdone]]]].
  exists schedule', st'. repeat split; auto.
  apply done_results; [|exact Hdone]. exact (run_inv Hcf' Hinv Hrun').
Qed.

(** C2, as the specification words it: the result of "doc1" that the main
    thread takes from the queue while it collects for "doc3" would have
    to be kept.  It is in no queue after the step. *)
Lemma foreign_result_is_not_redistributed :
  ~ redistributes fixed_extractor interleaved.
Proof.
  intros H.
  assert (Hin : In (mkSegmentResult (u "doc1") [apple])
                   [mkSegmentResult (u "doc3") []]).
  { apply (H (ctx_of fixed_extractor docC) [] 0 []
             (mkSegmentResult (u "doc1") [apple])
             [mkSegmentResult (u "doc3") []]
             (mkState [] [mkSegmentResult (u "doc3") []] false WHead
                (MCollect (ctx_of fixed_extractor docC) [] 0 []) []));
      try reflexivity.
    vm_compute. discriminate. }
  destruct Hin as [Hin | []]. vm_compute in Hin. discriminate.
Qed.

(** C2, amended: while the main thread collects the results of a
    document, a result with another id that it takes from the output
    queue is dropped.  The step removes it from the queue and changes
    nothing else, and the loop goes on as if that result had never been
    polled. *)
Theorem foreign_result_dropped (self : Extractor) (st : State)
  (ctx : DocCtx) (doc_results : list Triplet) (k : nat)
  (docs : list Document) (r : SegmentResult) (rest : list SegmentResult) :
  main st = MCollect ctx doc_results k docs ->
  k < c_num_segments ctx ->
  output_queue st = r :: rest ->
  sr_doc_id r <> c_doc_id ctx ->
  main_step self st = Some (set_output_queue rest st)
  /\ forall polls,
       correlate (c_doc_id ctx) (c_num_segments ctx) doc_results k
                 (Some r :: polls)
       = correlate (c_doc_id ctx) (c_num_segments ctx) doc_results k polls.
Proof.
  intros Hm Hk Hq Hr. split.
  - unfold main_step, set_output_queue. rewrite Hm, Hq.
    replace (k <? c_num_segments ctx) with true
      by (symmetry; apply Nat.ltb_lt; lia).
    unfold collect_one.
    destruct (eqb (sr_doc_id r) (c_doc_id ctx)) eqn:E.
    + now apply eqb_eq in E.
    + reflexivity.
  - intros polls. now apply correlate_foreign.
Qed.

Lemma foreign_result_dropped_witness :
  main_step fixed_extractor interleaved
  = Some (set_output_queue [mkSegmentResult (u "doc3") []] interleaved)
  /\ forall polls,
       correlate (u "doc3") 1 [] 0
                 (Some (mkSegmentResult (u "doc1") [apple]) :: polls)
       = correlate (u "doc3") 1 [] 0 polls.
Proof.
  apply (@foreign_result_dropped fixed_extractor interleaved
           (ctx_of fixed_extractor docC) [] 0 []
           (mkSegmentResult (u "doc1") [apple])
           [mkSegmentResult (u "doc3") []]).
  - reflexivity.
  - vm_compute. lia.
  - reflexivity.
  - vm_compute. discriminate.
Defined.

(** C3: for a document with text that the segmenter cuts in [n]
    segments, the correlation loop yields nothing while fewer than [n]
    results with its id have been polled, and yields one result, with
    [num_segments = n], on the poll that brings the [n]-th of them,
    whatever other results and empty polls come in between.  In a call
    that is not cancelled, under every interleaving of the two threads,
    what has been yielded is the beginning of the list that holds one
    result for each document with text, in order; it is that list when
    the call has ended; and, the batch size being positive, the call can
    be run to its end from every state it reaches. *)
Theorem completion_count (self : Extractor) :
  (forall (doc : Document) (polls : list (option SegmentResult)),
      has_text doc = true ->
      let n := length (segment_document self (strip (d_text doc))) in
      (count_tagged (d_id doc) polls < n ->
       process_document self doc polls = Waiting)
      /\ (n <= count_tagged (d_id doc) polls ->
          exists seen rest r,
            polls = seen ++ rest
            /\ count_tagged (d_id doc) seen = n
            /\ (forall pre post, seen = pre ++ post -> post <> [] ->
                count_tagged (d_id doc) pre < n)
            /\ process_document self doc polls = Yielded r rest
            /\ dr_doc_id r = d_id doc
            /\ dr_num_segments r = n
            /\ dr_triplets r = tagged_triplets (d_id doc) seen))
  /\ (forall (docs : list Document) (schedule : list Label) (st : State),
         cancel_free schedule ->
         run self schedule (initial docs) = Some st ->
         (exists later, yielded st ++ later = expected self docs)
         /\ (main st = MDone -> yielded st = expected self docs)
         /\ ((0 < batch_size self)%Z ->
             exists schedule' st',
               cancel_free schedule' /\ run self schedule' st = Some st'
               /\ main st' = MDone
               /\ yielded st' = expected self docs)).
Proof.
  split.
  - intros doc polls Ht n. unfold process_document.
    unfold has_text in Ht. rewrite Ht. simpl negb. cbv iota. fold n. split.
    + intros H. rewrite correlate_waiting; [reflexivity | exact H].
    + intros H.
      destruct (@correlate_yields (d_id doc) n polls [] 0)
        as [seen [rest [E1 [E2 [E3 E4]]]]]; [exact H|].
      rewrite E2. simpl in E3, E4.
      eexists seen, rest, _. repeat split; eauto. lia.
  - intros docs schedule st Hcf Hrun. split; [|split].
    + eapply reachable_prefix; eassumption.
    + eapply finished_run_results; eassumption.
    + intros Hbatch. eapply reachable_can_finish; eassumption.
Qed.

Lemma completion_count_witness :
  process_document fixed_extractor docA
    [None; Some (mkSegmentResult (u "doc1") [apple]);
     Some (mkSegmentResult (u "doc9") [apple]);
     Some (mkSegmentResult (u "doc1") [])] = Waiting
  /\ exists st,
       run fixed_extractor (firstn 17 full_schedule)
           (initial [docA; docB; docC]) = Some st
       /\ (exists later,
              yielded st ++ later
              = expected fixed_extractor [docA; docB; docC])
       /\ (main st = MDone ->
           yielded st = expected fixed_extractor [docA; docB; docC])
       /\ exists schedule' st',
            cancel_free schedule'
            /\ run fixed_extractor schedule' st = Some st'
            /\ main st' = MDone
            /\ yielded st' = expected fixed_extractor [docA; docB; docC].
Proof.
  split.
  - apply (proj1 (completion_count fixed_extractor) docA).
    + reflexivity.
    + vm_compute. lia.
  - eexists. split; [vm_compute; reflexivity|].
    assert (Hcf : cancel_free (firstn 17 full_schedule)).
    { unfold cancel_free. simpl.
      repeat (constructor; [discriminate|]). constructor. }
    destruct (proj2 (completion_count fixed_extractor)
                [docA; docB; docC] (firstn 17 full_schedule) _ Hcf
                ltac:(vm_compute; reflexivity)) as [H1 [H2 H3]].
    split; [exact H1|]. split; [exact H2|]. apply H3. reflexivity.
Defined.

(** Whatever the schedule, cancelled or not, the call returns only after
    the worker thread has ended: the [finally] block joins it. *)
Lemma worker_step_started (self : Extractor) (st st' : State) :
  worker_step self st = Some st' ->
  main st' = main st /\ worker st' <> WNotStarted /\ worker st <> WExit.
Proof.
  intros Hstep. unfold worker_step in Hstep.
  destruct st as [inq outq stop w m y]; simpl in *.
  destruct w as [| | |batch|batch| |rest ids|ids|]; try discriminate.
  - stepped Hstep. destruct stop; repeat split; discriminate.
  - stepped Hstep. destruct inq; repeat split; discriminate.
  - stepped Hstep.
    destruct (_ <? _)%Z; [destruct inq|]; try destruct batch;
      repeat split; discriminate.
  - destruct inq; stepped Hstep; try destruct batch;
      repeat split; discriminate.
  - stepped Hstep. destruct stop; repeat split; discriminate.
  - destruct rest as [|item rest]; [|destruct (fst _)]; stepped Hstep;
      repeat split; discriminate.
  - destruct ids; stepped Hstep; repeat split; discriminate.
Qed.

Lemma main_step_joined (self : Extractor) (st st' : State) :
  joined st -> main_step self st = Some st' -> joined st'.
Proof.
  unfold joined, main_step. intros Hj Hstep.
  destruct st as [inq outq stop w m y]; simpl in *.
  destruct m as [ds|ds|c its ds|c a k ds|c a k ds| | |];
    try discriminate.
  - destruct w; stepped Hstep; discriminate.
  - destruct ds as [|d ds]; [|destruct (negb (truthy (strip (d_text d))))];
      stepped Hstep; exact Hj.
  - destruct its; [|destruct (queue_full self inq)]; try discriminate;
      stepped Hstep; exact Hj.
  - destruct (k <? c_num_segments c); [destruct outq|]; stepped Hstep;
      exact Hj.
  - stepped Hstep. exact Hj.
  - stepped Hstep. exact Hj.
  - destruct w; try discriminate; stepped Hstep; congruence.
Qed.

Lemma step_joined (self : Extractor) (l : Label) (st st' : State) :
  joined st -> step self l st = Some st' -> joined st'.
Proof.
  intros Hj Hstep. destruct l; simpl in Hstep.
  - destruct (worker_step_started _ _ Hstep) as [Hm [Hw Hne]].
    unfold joined in *. rewrite Hm. destruct (main st); auto; congruence.
  - eapply main_step_joined; eassumption.
  - unfold cancel_step in Hstep. unfold joined in *.
    destruct st as [inq outq stop w m y]; simpl in *.
    destruct m; try discriminate. stepped Hstep. exact Hj.
Qed.

Lemma joined_before_done (self : Extractor) (docs : list Document)
  (schedule : list Label) (st : State) :
  run self schedule (initial docs) = Some st ->
  main st = MDone -> worker st = WExit.
Proof.
  assert (H : forall st0, joined st0 -> run self schedule st0 = Some st ->
                          joined st).
  { induction schedule as [|l schedule IH]; intros st0 Hj Hrun;
      simpl in Hrun.
    - now inversion Hrun; subst.
    - destruct (step self l st0) as [st1|] eqn:E; [|discriminate].
      eauto using step_joined. }
  intros Hrun Hdone. specialize (H (initial docs) I Hrun).
  unfold joined in H. now rewrite Hdone in H.
Qed.

(** C8: the worker finds the input queue of "doc3" empty; the document is
    put, the call is cancelled while it waits, and the stop event is set;
    the worker reads the stop event and leaves its loop.  The main thread
    joins it and the call ends with the work item still in the input
    queue. *)
Theorem stop_race_abandons_item :
  exists st,
    run fixed_extractor race_schedule (initial [docC]) = Some st
    /\ stop_event st = true /\ worker st = WExit /\ main st = MDone
    /\ input_queue st = work_items fixed_extractor docC
    /\ input_queue st <> []
    /\ output_queue st = [] /\ yielded st = [].
Proof.
  eexists. split; [vm_compute; reflexivity|].
  repeat split; try reflexivity. simpl. discriminate.
Qed.

(** C9: when the inference call of a work item raises, the worker puts a
    result with no triplet for that item in the output queue and goes on
    with its batch.  With a positive batch size, whatever the inference
    calls of a stream do, a call that is not cancelled never loses its
    worker and can be run to its end from every state it reaches; at its
    end it has yielded one result for each document with text, in the
    order of the stream, and for every document of the stream whose own
    inference calls all raise this result has no triplet and the number
    of the document's segments, whether the calls made for the other
    documents fail or not. *)
Theorem failing_inference (self : Extractor) :
  (forall (st : State) (item : WorkItem) (rest : list WorkItem)
          (batch_ids : list str),
      worker st = WProc (item :: rest) batch_ids ->
      extractor self (wi_segment item) (wi_src_lang item) = Raised ->
      worker_step self st
      = Some (set_worker (WProc rest batch_ids)
                (set_output_queue
                   (output_queue st ++ [mkSegmentResult (wi_doc_id item) []])
                   st)))
  /\ ((0 < batch_size self)%Z ->
      forall (docs : list Document) (schedule : list Label) (st : State),
        cancel_free schedule ->
        run self schedule (initial docs) = Some st ->
        (worker st = WExit -> main st = MJoin \/ main st = MDone)
        /\ exists schedule' st',
             cancel_free schedule'
             /\ run self schedule' st = Some st'
             /\ main st' = MDone
             /\ length (yielded st') = length (filter has_text docs)
             /\ forall (i : nat) (doc : Document),
                  nth_error (filter has_text docs) i = Some doc ->
                  inference_fails self doc ->
                  nth_error (yielded st') i
                  = Some (empty_result self doc)).
Proof.
  split.
  - intros st item rest ids Hw Hfail. unfold worker_step.
    rewrite Hw, process_segment_failure; [reflexivity | exact Hfail].
  - intros Hbatch docs schedule st Hcf Hrun.
    pose proof (run_inv Hcf (initial_inv self docs) Hrun) as Hinv. split.
    + intros Hw. destruct Hinv as [Ht _ _]. rewrite Hw in Ht.
      destruct (main st); simpl in Ht; auto;
        destruct Ht as [Ht1 Ht2]; try contradiction; discriminate.
    + destruct (@reachable_can_finish self docs schedule st Hbatch Hcf Hrun)
        as [schedule' [st' [Hcf' [Hrun' [Hdone Hy]]]]].
      exists schedule', st'. do 3 (split; [assumption|]).
      rewrite Hy. unfold expected. split; [apply length_map|].
      intros i doc Hi Hfail.
      rewrite nth_error_map, Hi. simpl.
      now rewrite (expected_result_failing Hfail).
Qed.

Lemma failing_inference_witness :
  worker_step mixed_extractor
    (mkState [] [] false
       (WProc [mkWorkItem (u "doc3") (u "One.") (u "en_XX")] [u "doc3"])
       (MSleep (ctx_of mixed_extractor docC) [] 0 []) [])
  = Some (mkState [] [mkSegmentResult (u "doc3") []] false
            (WProc [] [u "doc3"])
            (MSleep (ctx_of mixed_extractor docC) [] 0 []) [])
  /\ exists st,
       run mixed_extractor (firstn 12 full_schedule)
           (initial [docA; docB; docC]) = Some st
       /\ (worker st = WExit -> main st = MJoin \/ main st = MDone)
       /\ exists schedule' st',
            cancel_free schedule'
            /\ run mixed_extractor schedule' st = Some st'
            /\ main st' = MDone
            /\ length (yielded st') = 2
            /\ nth_error (yielded st') 1
               = Some (empty_result mixed_extractor docC).
Proof.
  split.
  - exact (proj1 (failing_inference mixed_extractor)
             (mkState [] [] false
                (WProc [mkWorkItem (u "doc3") (u "One.") (u "en_XX")]
                       [u "doc3"])
                (MSleep (ctx_of mixed_extractor docC) [] 0 []) [])
             (mkWorkItem (u "doc3") (u "One.") (u "en_XX")) []
             [u "doc3"] eq_refl eq_refl).
  - eexists. split; [vm_compute; reflexivity|].
    assert (Hcf : cancel_free (firstn 12 full_schedule)).
    { unfold cancel_free. simpl.
      repeat (constructor; [discriminate|]). constructor. }
    destruct (proj2 (failing_inference mixed_extractor) eq_refl
                [docA; docB; docC] (firstn 12 full_schedule) _ Hcf
                ltac:(vm_compute; reflexivity))
      as [Hw [schedule' [st' [Hcf' [Hrun' [Hdone [Hlen Hnth]]]]]]].
    split; [exact Hw|]. exists schedule', st'.
    do 4 (split; [assumption|]).
    apply (Hnth 1 docC eq_refl).
    intros segment Hin _. vm_compute in Hin.
    destruct Hin as [<- | []]. reflexivity.
Defined.

(** ** The parser and the linearized form *)

Section LinearizedFacts.

Lemma lstrip_starts_plain (s : str) : starts_plain s -> lstrip s = s.
Proof. destruct s as [|c s]; simpl; [reflexivity|]. now intros ->. Qed.

Lemma rstrip_ends_plain (s : str) : starts_plain (rev s) -> rstrip s = s.
Proof.
  intros H. unfold rstrip. rewrite (lstrip_starts_plain _ H).
  apply rev_involutive.
Qed.

Lemma starts_plain_app (a b : str) :
  a <> [] -> starts_plain a -> starts_plain (a ++ b).
Proof. destruct a; [congruence | auto]. Qed.

Lemma word_starts_plain (w : str) : is_word w -> starts_plain w.
Proof. intros [Hne H]. destruct w; [exact I | now inversion H]. Qed.

Lemma word_rev_starts_plain (w : str) : is_word w -> starts_plain (rev w).
Proof.
  intros [Hne H]. apply Forall_rev in H.
  destruct (rev w); [exact I | now inversion H].
Qed.

Lemma join_cons2 (w w' : str) (ws : list str) :
  join [SPACE] (w :: w' :: ws) = w ++ SPACE :: join [SPACE] (w' :: ws).
Proof. reflexivity. Qed.

Lemma join_not_nil (ws : list str) :
  ws <> [] -> Forall is_word ws -> join [SPACE] ws <> [].
Proof.
  intros Hne Hw. destruct ws as [|w ws]; [congruence|].
  inversion Hw as [|? ? [Hw1 _] _]; subst.
  destruct ws; simpl; [exact Hw1|]. destruct w; [congruence | discriminate].
Qed.

Lemma join_starts_plain (ws : list str) :
  Forall is_word ws -> starts_plain (join [SPACE] ws).
Proof.
  intros Hw. destruct ws as [|w ws]; [exact I|].
  inversion Hw as [|? ? Hw1 _]; subst.
  destruct ws as [|w' ws]; [now apply word_starts_plain|].
  rewrite join_cons2. apply starts_plain_app; [apply Hw1|].
  now apply word_starts_plain.
Qed.

Lemma join_rev_starts_plain (ws : list str) :
  Forall is_word ws -> starts_plain (rev (join [SPACE] ws)).
Proof.
  induction 1 as [|w ws Hw Hws IH]; [exact I|].
  destruct ws as [|w' ws]; [now apply word_rev_starts_plain|].
  rewrite join_cons2, rev_app_distr. simpl rev. rewrite <- app_assoc.
  apply starts_plain_app; [|exact IH].
  intros E. apply (f_equal (@rev char)) in E.
  rewrite rev_involutive in E.
  apply (join_not_nil (ws := w' :: ws)); [discriminate | exact Hws | exact E].
Qed.

Lemma raw_join (ws : list str) :
  ws <> [] -> raw ws = SPACE :: join [SPACE] ws.
Proof.
  induction ws as [|w ws IH]; intros Hne; [congruence|].
  destruct ws as [|w' ws].
  - simpl. now rewrite app_nil_r.
  - rewrite join_cons2. unfold raw in *. simpl flat_map at 1.
    simpl. f_equal. f_equal. apply IH. discriminate.
Qed.

Lemma raw_snoc (ws : list str) (w : str) :
  raw (ws ++ [w]) = raw ws ++ SPACE :: w.
Proof. unfold raw. rewrite flat_map_app. simpl. now rewrite app_nil_r. Qed.

(** What [strip] makes of an accumulator: the words with one space
    between them. *)
Lemma strip_raw (ws : list str) :
  Forall is_word ws -> strip (raw ws) = join [SPACE] ws.
Proof.
  intros Hw. destruct ws as [|w ws]; [reflexivity|].
  rewrite raw_join by discriminate. unfold strip.
  change (lstrip (SPACE :: join [SPACE] (w :: ws)))
    with (lstrip (join [SPACE] (w :: ws))).
  rewrite lstrip_starts_plain by now apply join_starts_plain.
  apply rstrip_ends_plain. now apply join_rev_starts_plain.
Qed.

Lemma raw_truthy (ws : list str) : ws <> [] -> truthy (raw ws) = true.
Proof. destruct ws; [congruence | reflexivity]. Qed.

Lemma plain_words (ws : list str) : Forall plain_word ws -> Forall is_word ws.
Proof. apply Forall_impl. now intros w [H _]. Qed.

Lemma eqb_neq (a b : str) : a <> b -> eqb a b = false.
Proof.
  intros H. destruct (eqb a b) eqn:E; [|reflexivity].
  now apply eqb_eq in E.
Qed.

Lemma plain_word_not_marker (w : str) :
  plain_word w -> eqb w TRIPLET || eqb w RELATION = false.
Proof.
  intros [_ H]. apply orb_false_iff. split; apply eqb_neq; intros ->;
    vm_compute in H; discriminate.
Qed.

Lemma tag_inj (a b : str) : tag a = tag b -> a = b.
Proof.
  unfold tag. intros H. inversion H as [H1].
  now apply app_inv_tail in H1.
Qed.

Lemma type_tag_not_marker (t : str) :
  type_name t -> eqb (tag t) TRIPLET || eqb (tag t) RELATION = false.
Proof.
  intros [_ [H1 H2]]. apply orb_false_iff. split; apply eqb_neq; intros E.
  - apply H1. now apply tag_inj.
  - apply H2. now apply tag_inj.
Qed.

Lemma startswith_nil (s : str) : startswith s [] = true.
Proof. now destruct s. Qed.

Lemma is_tag_tag (t : str) : is_tag (tag t) = true.
Proof.
  unfold is_tag, endswith, tag. simpl.
  rewrite rev_app_distr. simpl. now rewrite !startswith_nil.
Qed.

Lemma slice_tag (t : str) : slice_1_m1 (tag t) = t.
Proof. unfold slice_1_m1, tag. simpl. apply removelast_last. Qed.

(** Plain words go to the accumulator of the current state. *)
Lemma parser_step_plain (st : ParserState) (w : str) :
  plain_word w ->
  parser_step st w
  = match current st with
    | Ct => mkParserState Ct (subject st ++ SPACE :: w) (relation st)
                          (object_ st) (object_type st) (subject_type st)
                          (triplets st)
    | Cs => mkParserState Cs (subject st) (relation st)
                          (object_ st ++ SPACE :: w) (object_type st)
                          (subject_type st) (triplets st)
    | Co => mkParserState Co (subject st) (relation st ++ SPACE :: w)
                          (object_ st) (object_type st) (subject_type st)
                          (triplets st)
    | Cx => st
    end.
Proof.
  intros Hw. unfold parser_step.
  rewrite (plain_word_not_marker Hw).
  destruct Hw as [_ Hw]. unfold is_tag in Hw. now rewrite Hw.
Qed.

Lemma parser_words_subject (ws : list str) s r o ot sty ts :
  Forall plain_word ws ->
  fold_left parser_step ws (mkParserState Ct s r o ot sty ts)
  = mkParserState Ct (s ++ raw ws) r o ot sty ts.
Proof.
  intros Hw. revert s. induction Hw as [|w ws Hw _ IH]; intros s; simpl.
  - now rewrite app_nil_r.
  - rewrite (parser_step_plain _ Hw). simpl. rewrite IH.
    now rewrite <- app_assoc.
Qed.

Lemma parser_words_object (ws : list str) s r o ot sty ts :
  Forall plain_word ws ->
  fold_left parser_step ws (mkParserState Cs s r o ot sty ts)
  = mkParserState Cs s r (o ++ raw ws) ot sty ts.
Proof.
  intros Hw. revert o. induction Hw as [|w ws Hw _ IH]; intros o; simpl.
  - now rewrite app_nil_r.
  - rewrite (parser_step_plain _ Hw). simpl. rewrite IH.
    now rewrite <- app_assoc.
Qed.

Lemma parser_words_relation (ws : list str) s r o ot sty ts :
  Forall plain_word ws ->
  fold_left parser_step ws (mkParserState Co s r o ot sty ts)
  = mkParserState Co s (r ++ raw ws) o ot sty ts.
Proof.
  intros Hw. revert r. induction Hw as [|w ws Hw _ IH]; intros r; simpl.
  - now rewrite app_nil_r.
  - rewrite (parser_step_plain _ Hw). simpl. rewrite IH.
    now rewrite <- app_assoc.
Qed.

Lemma parser_step_marker (st : ParserState) :
  parser_step st TRIPLET
  = mkParserState Ct [] [] (object_ st) (object_type st) (subject_type st)
                  (closed_triplets st).
Proof.
  unfold parser_step, closed_triplets. rewrite eqb_refl. simpl.
  destruct (relation st); reflexivity.
Qed.

(** The state after the tokens of one fact. *)
Lemma parser_fact (f : Fact) (st : ParserState) :
  well_formed f ->
  fold_left parser_step (linearize_fact f) st
  = mkParserState Co (raw (f_head f)) (raw (f_relation f)) (raw (f_tail f))
                  (f_tail_type f) (f_head_type f) (closed_triplets st).
Proof.
  intros [[_ Hh] [_ Ht] [_ Hr] Hht Htt]. unfold linearize_fact.
  simpl fold_left. rewrite parser_step_marker.
  rewrite fold_left_app, (parser_words_subject _ _ _ _ _ _ Hh).
  simpl fold_left. unfold parser_step at 2.
  rewrite (type_tag_not_marker Hht).
  change (startswith (tag (f_head_type f)) LT
          && endswith (tag (f_head_type f)) GT)
    with (is_tag (tag (f_head_type f))).
  rewrite is_tag_tag, slice_tag. cbn [current relation truthy triplets
    subject object_type].
  rewrite fold_left_app, (parser_words_object _ _ _ _ _ _ Ht).
  simpl fold_left. unfold parser_step at 2.
  rewrite (type_tag_not_marker Htt).
  change (startswith (tag (f_tail_type f)) LT
          && endswith (tag (f_tail_type f)) GT)
    with (is_tag (tag (f_tail_type f))).
  rewrite is_tag_tag, slice_tag. cbn [current relation truthy triplets
    subject object_ subject_type].
  now rewrite (parser_words_relation _ _ _ _ _ _ Hr).
Qed.

Lemma candidate_fact (f : Fact) (ts : list Triplet) :
  well_formed f ->
  candidate (mkParserState Co (raw (f_head f)) (raw (f_relation f))
               (raw (f_tail f)) (f_tail_type f) (f_head_type f) ts)
  = fact_triplet f
  /\ all_values (fact_triplet f) = true.
Proof.
  intros [[Hh1 Hh] [Ht1 Ht] [Hr1 Hr] [Hht _] [Htt _]].
  apply plain_words in Hh, Ht, Hr.
  unfold candidate, fact_triplet. simpl.
  rewrite !strip_raw by assumption. split; [reflexivity|].
  unfold all_values. simpl.
  rewrite !andb_true_iff, !truthy_not_nil.
  repeat split; auto using join_not_nil.
Qed.

Lemma closed_triplets_fact (f : Fact) (ts : list Triplet) :
  well_formed f ->
  closed_triplets (mkParserState Co (raw (f_head f)) (raw (f_relation f))
                     (raw (f_tail f)) (f_tail_type f) (f_head_type f) ts)
  = ts ++ [fact_triplet f].
Proof.
  intros Hf. destruct (candidate_fact ts Hf) as [E1 E2].
  unfold closed_triplets, emit_if_complete. rewrite E1, E2.
  cbn [relation triplets]. rewrite raw_truthy; [reflexivity|].
  apply Hf.
Qed.

Lemma parser_finish_fact (f : Fact) (ts : list Triplet) :
  well_formed f ->
  parser_finish (mkParserState Co (raw (f_head f)) (raw (f_relation f))
                   (raw (f_tail f)) (f_tail_type f) (f_head_type f) ts)
  = ts ++ [fact_triplet f].
Proof.
  intros Hf. destruct (candidate_fact ts Hf) as [E1 _].
  unfold parser_finish. rewrite E1. cbn [subject relation object_
    object_type subject_type triplets].
  destruct Hf as [[Hh1 _] [Ht1 _] [Hr1 _] [Hht _] [Htt _]].
  rewrite !raw_truthy by assumption.
  destruct (f_tail_type f); [congruence|].
  destruct (f_head_type f); [congruence|]. reflexivity.
Qed.

Lemma parser_facts (fs : list Fact) (f : Fact) (ts : list Triplet) :
  well_formed f -> Forall well_formed fs ->
  parser_finish
    (fold_left parser_step (linearize fs)
       (mkParserState Co (raw (f_head f)) (raw (f_relation f))
          (raw (f_tail f)) (f_tail_type f) (f_head_type f) ts))
  = ts ++ fact_triplet f :: map fact_triplet fs.
Proof.
  intros Hf Hfs. revert f ts Hf.
  induction Hfs as [|g fs Hg _ IH]; intros f ts Hf.
  - simpl fold_left. now apply parser_finish_fact.
  - change (linearize (g :: fs)) with (linearize_fact g ++ linearize fs).
    rewrite fold_left_app.
    rewrite (parser_fact _ Hg), (closed_triplets_fact _ Hf).
    rewrite (IH g _ Hg), <- app_assoc. reflexivity.
Qed.

Lemma linearize_fact_not_nil (f : Fact) : linearize_fact f <> [].
Proof. discriminate. Qed.

End LinearizedFacts.

(** X1: the parser inverts the linearized form.  For facts whose heads,
    tails and relations are non-empty lists of words that are not
    bracketed tokens, and whose types are non-empty and are not "triplet"
    or "relation", a text whose tokens are the facts written one after
    the other ([<triplet>] head [<type>] tail [<type>] relation) is parsed
    into exactly these facts, in order, the words of each field joined by
    single spaces. *)
Theorem parser_inverts_linearization (text : str) (fs : list Fact) :
  Forall well_formed fs ->
  tokenize (strip text) = linearize fs ->
  extract_triplets_typed text = Returned (map fact_triplet fs).
Proof.
  intros Hfs Htok. unfold extract_triplets_typed.
  destruct text as [|c text].
  - destruct fs as [|f fs]; [reflexivity|].
    vm_compute in Htok. discriminate.
  - simpl negb. cbv iota. unfold try_except, extract_body, parse_tokens.
    rewrite Htok. f_equal.
    destruct Hfs as [|f fs Hf Hfs]; [reflexivity|].
    change (linearize (f :: fs)) with (linearize_fact f ++ linearize fs).
    rewrite fold_left_app, (parser_fact _ Hf).
    now rewrite (parser_facts _ Hf Hfs).
Qed.

Ltac prove_words :=
  split; [discriminate|];
  repeat (constructor;
          [split; [split; [discriminate | repeat constructor]
                  | reflexivity]|]);
  constructor.

Lemma facts_example_well_formed : Forall well_formed facts_example.
Proof.
  unfold facts_example.
  repeat (constructor;
          [constructor; try prove_words;
           unfold type_name; repeat split; discriminate|]).
  constructor.
Qed.

Lemma parser_inverts_linearization_witness :
  extract_triplets_typed
    (u "<s>tp_XX<triplet> Apple Inc. <org> Cupertino <loc> headquartered in <triplet> Steve Jobs <per> Apple <org> founder of</s>")
  = Returned (map fact_triplet facts_example).
Proof.
  apply parser_inverts_linearization.
  - exact facts_example_well_formed.
  - vm_compute. reflexivity.
Defined.

(** ** The parser on any text *)

Section ParserShape.

Variable P : char -> Prop.

Lemma lstrip_Forall (s : str) : Forall P s -> Forall P (lstrip s).
Proof.
  induction 1 as [|c s Hc Hs IH]; simpl; [constructor|].
  destruct (isspace c); [exact IH | now constructor].
Qed.

Lemma strip_Forall (s : str) : Forall P s -> Forall P (strip s).
Proof.
  intros H. unfold strip, rstrip.
  now apply Forall_rev, lstrip_Forall, Forall_rev, lstrip_Forall.
Qed.

Lemma replace_from_Forall (old s : str) (skip : nat) :
  Forall P s -> Forall P (replace_from old [] s skip).
Proof.
  intros H. revert skip. induction H as [|c s Hc Hs IH]; intros skip; simpl.
  - constructor.
  - destruct skip; [|apply IH].
    match goal with
    | |- Forall P (if ?b then _ else _) =>
        destruct b; [apply IH | constructor; auto]
    end.
Qed.

Lemma fields_Forall (s : str) : Forall P s -> Forall (Forall P) (fields s).
Proof.
  induction 1 as [|c s Hc Hs IH]; simpl.
  - repeat constructor.
  - destruct (isspace c).
    + constructor; [constructor | exact IH].
    + destruct (fields s) as [|w ws].
      * repeat constructor. exact Hc.
      * inversion IH; subst. constructor; [constructor|]; assumption.
Qed.

Lemma tokenize_Forall (text : str) :
  Forall P text -> Forall (Forall P) (tokenize text).
Proof.
  intros H. unfold tokenize, split, replace.
  apply Forall_forall. intros w Hw. apply filter_In in Hw.
  destruct Hw as [Hw _]. revert w Hw. apply Forall_forall.
  now apply fields_Forall; repeat apply replace_from_Forall.
Qed.

Lemma tl_Forall (s : str) : Forall P s -> Forall P (tl s).
Proof. destruct 1; [constructor | assumption]. Qed.

Lemma removelast_Forall (s : str) : Forall P s -> Forall P (removelast s).
Proof.
  induction 1 as [|c s Hc Hs IH]; simpl; [constructor|].
  destruct s; [constructor | now constructor].
Qed.

Lemma slice_Forall (s : str) : Forall P s -> Forall P (slice_1_m1 s).
Proof. intros H. now apply removelast_Forall, tl_Forall. Qed.

End ParserShape.

Lemma parser_step_start (st : ParserState) (token : str) :
  current st = Cx -> Forall (fun c => c <> ch "<") token ->
  parser_step st token = st.
Proof.
  intros Hc Ht. unfold parser_step. rewrite Hc.
  destruct token as [|c token]; [reflexivity|].
  inversion Ht as [|? ? Hne _]; subst.
  assert (E : (c =? ch "<")%N = false) by now apply N.eqb_neq.
  unfold TRIPLET, RELATION, LT. simpl in *. now rewrite E.
Qed.

(** X2: a text in which the character [<] does not occur gives no
    triplet. *)
Theorem no_bracket_no_triplet (text : str) :
  ~ In (ch "<") text -> extract_triplets_typed text = Returned [].
Proof.
  intros H. unfold extract_triplets_typed.
  destruct (negb (truthy text)); [reflexivity|].
  unfold try_except, extract_body, parse_tokens. f_equal.
  assert (Ht : Forall (Forall (fun c => c <> ch "<"))
                      (tokenize (strip text))).
  { apply tokenize_Forall, strip_Forall, Forall_forall.
    intros c Hc E. apply H. now rewrite <- E. }
  assert (E : fold_left parser_step (tokenize (strip text)) parser_init
              = parser_init).
  { induction Ht as [|token tokens Htoken _ IH]; [reflexivity|].
    simpl. now rewrite parser_step_start. }
  now rewrite E.
Qed.

Lemma not_In_forallb (c : char) (s : str) :
  forallb (fun x => negb (x =? c)%N) s = true -> ~ In c s.
Proof.
  intros H Hin. rewrite forallb_forall in H. specialize (H c Hin).
  now rewrite N.eqb_refl in H.
Qed.

Lemma no_bracket_no_triplet_witness :
  extract_triplets_typed (u "Apple is based in Cupertino tp_XX __en__")
  = Returned [].
Proof.
  apply no_bracket_no_triplet. apply not_In_forallb. reflexivity.
Defined.

Section ParserNormalForm.

Lemma acc_words_nil : acc_words [].
Proof. exists []. split; [constructor | reflexivity]. Qed.

Lemma acc_words_append (s token : str) :
  is_word token -> acc_words s -> acc_words (s ++ SPACE :: token).
Proof.
  intros Ht [ws [Hws ->]]. exists (ws ++ [token]). split.
  - apply Forall_app. split; [exact Hws | now constructor].
  - now rewrite raw_snoc.
Qed.

Lemma normalized_join (ws : list str) :
  Forall is_word ws -> normalized (join [SPACE] ws).
Proof.
  intros H. unfold normalized.
  now rewrite split_join, flat_map_split_words.
Qed.

Lemma acc_words_strip (s : str) : acc_words s -> normalized (strip s).
Proof.
  intros [ws [Hws ->]]. rewrite strip_raw by exact Hws.
  now apply normalized_join.
Qed.

Lemma candidate_normal (st : ParserState) :
  parser_form st -> triplet_normal (candidate st).
Proof.
  intros [_ Hs Hr Ho Hot Hst]. unfold triplet_normal, candidate. simpl.
  auto 6 using acc_words_strip.
Qed.

Lemma emit_if_complete_normal (st : ParserState) :
  parser_form st -> Forall triplet_normal (emit_if_complete st).
Proof.
  intros H. unfold emit_if_complete.
  destruct (all_values (candidate st)); [|apply H].
  apply Forall_app. split; [apply H|].
  constructor; [now apply candidate_normal | constructor].
Qed.

Lemma parser_step_form (st : ParserState) (token : str) :
  is_word token -> parser_form st -> parser_form (parser_step st token).
Proof.
  intros Hw Hst. pose proof (emit_if_complete_normal Hst) as He.
  assert (Hsl : spaceless (slice_1_m1 token))
    by (apply slice_Forall, Hw).
  destruct Hst as [Ht Hs Hr Ho Hot Hsty]. unfold parser_step.
  destruct (eqb token TRIPLET || eqb token RELATION).
  - destruct (truthy (relation st)); constructor; simpl;
      auto using acc_words_nil.
  - destruct (startswith token LT && endswith token GT).
    + destruct (current st); constructor; simpl; auto using acc_words_nil;
        destruct (truthy (relation st)); auto.
    + destruct (current st); constructor; simpl;
        auto using acc_words_append.
Qed.

Lemma parser_loop_form (tokens : list str) (st : ParserState) :
  Forall is_word tokens -> parser_form st ->
  parser_form (fold_left parser_step tokens st).
Proof.
  intros Hw. revert st.
  induction Hw as [|token tokens Htok _ IH]; intros st Hst; simpl.
  - exact Hst.
  - apply IH. now apply parser_step_form.
Qed.

Lemma parse_tokens_normal (tokens : list str) :
  Forall is_word tokens -> Forall triplet_normal (parse_tokens tokens).
Proof.
  intros Hw. unfold parse_tokens.
  assert (H : parser_form (fold_left parser_step tokens parser_init)).
  { apply parser_loop_form; [exact Hw|].
    constructor; simpl; auto using acc_words_nil; constructor. }
  unfold parser_finish.
  destruct (_ && _); [|apply H].
  apply Forall_app. split; [apply H|].
  constructor; [now apply candidate_normal | constructor].
Qed.

End ParserNormalForm.

(** X3: for every text, each triplet the parser returns has its head,
    relation and tail in normal form (the words with single spaces
    between them, no space at either end), and its two types hold no
    whitespace. *)
Theorem parser_fields_normalized (text : str) :
  exists ts, extract_triplets_typed text = Returned ts
             /\ Forall triplet_normal ts.
Proof.
  unfold extract_triplets_typed.
  destruct (negb (truthy text)).
  - exists []. split; [reflexivity | constructor].
  - eexists. split; [reflexivity|].
    apply parse_tokens_normal. unfold tokenize. apply split_words.
Qed.

(** ** One inference call, further *)

Lemma process_segment_complete (self : Extractor) (segment src_lang : str) :
  exists ts,
    fst (process_segment self segment src_lang) = Returned ts
    /\ Forall complete ts /\ Forall triplet_normal ts.
Proof.
  unfold process_segment, process_segment_body.
  destruct (_ >? _)%Z; [exists []; simpl; auto|].
  destruct (extractor self segment src_lang) as [[|[|[[ids|]|] items]]|];
    try (exists []; simpl; auto; fail).
  destruct (batch_decode self [ids]) as [[|decoded rest]|];
    try (exists []; simpl; auto; fail).
  simpl. unfold extract_triplets_typed.
  destruct (negb (truthy decoded)); [exists []; simpl; auto|].
  eexists. split; [reflexivity|]. split.
  - apply parse_tokens_complete, split_words.
  - apply parse_tokens_normal, split_words.
Qed.

Lemma gtb_le (x y : Z) : (x <= y)%Z -> (x >? y)%Z = false.
Proof. intros H. rewrite Z.gtb_ltb. now apply Z.ltb_ge. Qed.

Lemma process_segment_calls_within (self : Extractor)
  (segment src_lang : str) :
  (tokens_of self segment <= safe_length self)%Z ->
  snd (process_segment self segment src_lang) = [(segment, src_lang)].
Proof.
  intros H. unfold process_segment, process_segment_body.
  replace (tokens_of self segment >? safe_length self)%Z with false
    by (symmetry; apply gtb_le; lia).
  destruct (extractor self segment src_lang) as [[|[|[[ids|]|] items]]|];
    try reflexivity.
  destruct (batch_decode self [ids]) as [[|decoded rest]|]; reflexivity.
Qed.

(** X4: whatever the model and the decoder give back or raise, every
    triplet [process_segment] returns has its five fields non-empty, its
    head, relation and tail in normal form and no whitespace in its
    types. *)
Theorem process_segment_triplets (self : Extractor)
  (segment src_lang : str) :
  exists ts,
    fst (process_segment self segment src_lang) = Returned ts
    /\ Forall (fun t => complete t /\ triplet_normal t) ts.
Proof.
  destruct (process_segment_complete self segment src_lang)
    as [ts [E [H1 H2]]].
  exists ts. split; [exact E|].
  rewrite Forall_forall in *. auto.
Qed.

(** ** The segmenter, further *)

Section SegmenterShape.

Variable self : Extractor.

Local Abbreviation tokens := (tokens_of self).
Local Abbreviation safe := (safe_length self).

Lemma total_nonneg (xs : list str) : (0 <= total tokens xs)%Z.
Proof.
  induction xs as [|x xs IH]; [simpl; lia|].
  change (total tokens (x :: xs)) with (tokens x + total tokens xs)%Z.
  unfold tokens_of at 1. lia.
Qed.

Lemma fits_loop (ss cur : list str) :
  (total tokens cur + total tokens ss <= safe)%Z ->
  fold_left (sentence_step self) ss
            (mkSentenceLoop [] cur (total tokens cur))
  = mkSentenceLoop [] (cur ++ ss) (total tokens (cur ++ ss)).
Proof.
  revert cur. induction ss as [|s ss IH]; intros cur H; simpl.
  - now rewrite app_nil_r.
  - simpl in H. pose proof (total_nonneg cur). pose proof (total_nonneg ss).
    assert (Hs : (0 <= tokens s)%Z) by (unfold tokens_of; lia).
    unfold sentence_step at 2. cbn [current_length current_segment segments].
    replace (tokens s >? safe)%Z with false
      by (symmetry; apply gtb_le; lia).
    replace (total tokens cur + tokens s >? safe)%Z with false
      by (symmetry; apply gtb_le; lia).
    replace (total tokens cur + tokens s)%Z with (total tokens (cur ++ [s]))
      by (rewrite total_app; simpl; lia).
    rewrite IH.
    + now rewrite <- app_assoc.
    + rewrite total_app. simpl. lia.
Qed.

Lemma join_head_not_nil (x : str) (xs : list str) :
  x <> [] -> join [SPACE] (x :: xs) <> [].
Proof.
  intros Hx. destruct xs; simpl; [exact Hx|].
  destruct x; [congruence | discriminate].
Qed.

Lemma flush_nonempty (segs xs : list str) :
  Forall nonempty segs -> Forall nonempty xs ->
  Forall nonempty (flush segs xs).
Proof.
  intros Hs Hx. unfold flush. destruct xs as [|x xs]; [exact Hs|].
  apply Forall_app. split; [exact Hs|]. constructor; [|constructor].
  apply join_head_not_nil. now inversion Hx.
Qed.

Lemma word_loop_nonempty (words : list str) (st : WordLoop) :
  Forall nonempty words ->
  Forall nonempty (w_segments st) -> Forall nonempty (temp_segment st) ->
  Forall nonempty
    (w_segments (fold_left (word_step self) words st))
  /\ Forall nonempty
       (temp_segment (fold_left (word_step self) words st)).
Proof.
  intros Hw. revert st.
  induction Hw as [|word words Hword _ IH]; intros st H1 H2; simpl.
  - now split.
  - apply IH; unfold word_step;
      destruct (temp_length st + tokens (word ++ [SPACE]) >? safe)%Z;
      cbn [w_segments temp_segment]; auto using flush_nonempty.
    apply Forall_app. split; [exact H2 | now constructor].
Qed.

Lemma sentence_step_nonempty (st : SentenceLoop) (sentence : str) :
  nonempty sentence ->
  Forall nonempty (segments st) -> Forall nonempty (current_segment st) ->
  Forall nonempty (segments (sentence_step self st sentence))
  /\ Forall nonempty (current_segment (sentence_step self st sentence)).
Proof.
  intros Hs H1 H2. unfold sentence_step.
  destruct (tokens sentence >? safe)%Z.
  - set (flushed := match current_segment st with
                    | [] => st
                    | _ :: _ => _
                    end).
    assert (Hf : Forall nonempty (segments flushed)
                 /\ Forall nonempty (current_segment flushed)).
    { subst flushed. destruct (current_segment st) eqn:E.
      - simpl. rewrite ?E. split; auto.
      - cbn [segments current_segment]. split; [|constructor].
        now apply flush_nonempty. }
    destruct Hf as [Hf1 Hf2].
    destruct (@word_loop_nonempty (split sentence)
                (mkWordLoop (segments flushed) [] 0%Z)) as [Hw1 Hw2];
      simpl; auto.
    { apply Forall_impl with (P := is_word); [now intros w [H _]|].
      apply split_words. }
    cbn [segments current_segment]. split; [|exact Hf2].
    now apply flush_nonempty.
  - destruct (current_length st + tokens sentence >? safe)%Z;
      cbn [segments current_segment]; split; auto using flush_nonempty.
    apply Forall_app. split; [exact H2 | now constructor].
Qed.

End SegmenterShape.

(** X5: a text whose sentences together are within the budget gives one
    segment, the sentences joined by single spaces. *)
Theorem segment_document_fits (self : Extractor) (text : str) :
  sent_tokenize self text <> [] ->
  (total (tokens_of self) (sent_tokenize self text) <= safe_length self)%Z ->
  segment_document self text = [join [SPACE] (sent_tokenize self text)].
Proof.
  intros Hne H. unfold segment_document.
  change (mkSentenceLoop [] [] 0%Z)
    with (mkSentenceLoop [] [] (total (tokens_of self) [])).
  rewrite fits_loop by (simpl; lia). simpl.
  destruct (sent_tokenize self text); [congruence | reflexivity].
Qed.

Lemma segment_document_fits_witness :
  segment_document words_extractor (u "Hi. Yo.") = [u "Hi. Yo."].
Proof.
  apply (@segment_document_fits words_extractor (u "Hi. Yo.")).
  - vm_compute. discriminate.
  - vm_compute. discriminate.
Defined.

(** X6: when the sentence splitter gives no empty sentence, no segment is
    empty. *)
Theorem segment_document_nonempty (self : Extractor) (text : str) :
  Forall nonempty (sent_tokenize self text) ->
  Forall nonempty (segment_document self text).
Proof.
  intros H. unfold segment_document.
  assert (Hl : forall ss st,
             Forall nonempty ss ->
             Forall nonempty (segments st) ->
             Forall nonempty (current_segment st) ->
             Forall nonempty
               (flush (segments (fold_left (sentence_step self) ss st))
                  (current_segment
                     (fold_left (sentence_step self) ss st)))).
  { intros ss st Hss. revert st.
    induction Hss as [|s ss Hs _ IH]; intros st H1 H2; simpl.
    - now apply flush_nonempty.
    - destruct (sentence_step_nonempty self st Hs H1 H2). now apply IH. }
  apply Hl; simpl; auto.
Qed.

Lemma segment_document_nonempty_witness :
  Forall nonempty
    (segment_document words_extractor
       (u "Hi there all. Yo. A b c d e f. G.")).
Proof.
  apply segment_document_nonempty. vm_compute.
  repeat (constructor; [discriminate|]). constructor.
Defined.

Section SentenceGroups.

Variable self : Extractor.

Local Abbreviation tokens := (tokens_of self).
Local Abbreviation safe := (safe_length self).

Lemma greedy_snoc (gs : list (list str)) (g h : list str) :
  greedy self (gs ++ [g]) -> overflow self g h ->
  greedy self ((gs ++ [g]) ++ [h]).
Proof.
  induction gs as [|x gs IH]; intros Hg Ho.
  - simpl. auto.
  - destruct Hg as [H1 H2]. split; [|now apply IH].
    destruct gs; exact H1.
Qed.

Lemma overflow_extend (x g : list str) (s : str) :
  g <> [] -> overflow self x g -> overflow self x (g ++ [s]).
Proof. destruct g; [congruence | auto]. Qed.

Lemma greedy_extend_last (gs : list (list str)) (g : list str) (s : str) :
  g <> [] -> greedy self (gs ++ [g]) -> greedy self (gs ++ [g ++ [s]]).
Proof.
  intros Hne. induction gs as [|x gs IH]; intros Hg.
  - simpl. auto.
  - destruct Hg as [H1 H2]. split; [|now apply IH].
    destruct gs; [now apply overflow_extend | exact H1].
Qed.

Lemma sentence_step_groups (processed : list str) (st : SentenceLoop)
  (groups : list (list str)) (s : str) :
  (tokens s <= safe)%Z -> groups_inv self processed st groups ->
  exists groups',
    groups_inv self (processed ++ [s]) (sentence_step self st s) groups'.
Proof.
  intros Hs [Hall Hok Hseg Hlen Hb Hfirst Hg]. unfold sentence_step.
  rewrite (gtb_le Hs).
  destruct (current_length st + tokens s >? safe)%Z eqn:E.
  - assert (Hne : current_segment st <> []).
    { intros Hnil. rewrite Hnil in Hlen. simpl in Hlen. rewrite Hlen in E.
      rewrite gtb_le in E by lia. discriminate. }
    exists (groups ++ [current_segment st]).
    constructor; cbn [segments current_segment current_length].
    + rewrite concat_app. simpl. rewrite app_nil_r, <- Hall. reflexivity.
    + apply Forall_app. split; [exact Hok|].
      constructor; [|constructor]. split; [exact Hne | lia].
    + unfold flush. destruct (current_segment st); [congruence|].
      now rewrite map_app, Hseg.
    + simpl. lia.
    + exact Hs.
    + discriminate.
    + apply greedy_snoc; [exact Hg|]. simpl.
      apply Z.gtb_lt in E. lia.
  - exists groups.
    assert (E' : (current_length st + tokens s <= safe)%Z).
    { rewrite Z.gtb_ltb in E. apply Z.ltb_ge in E. exact E. }
    constructor; cbn [segments current_segment current_length].
    + rewrite <- Hall. now rewrite app_assoc.
    + exact Hok.
    + exact Hseg.
    + rewrite total_app, Hlen. simpl. lia.
    + exact E'.
    + intros Hnil. now destruct (current_segment st).
    + destruct (current_segment st) eqn:Ec.
      * rewrite (Hfirst eq_refl). simpl. auto.
      * apply greedy_extend_last; [discriminate | exact Hg].
Qed.

Lemma sentence_loop_groups (ss processed : list str) (st : SentenceLoop)
  (groups : list (list str)) :
  Forall (fun s => (tokens s <= safe)%Z) ss ->
  groups_inv self processed st groups ->
  exists groups',
    groups_inv self (processed ++ ss)
               (fold_left (sentence_step self) ss st) groups'.
Proof.
  intros Hss. revert processed st groups.
  induction Hss as [|s ss Hs _ IH]; intros processed st groups Hinv.
  - exists groups. now rewrite app_nil_r.
  - simpl.
    destruct (@sentence_step_groups processed st groups s Hs Hinv)
      as [groups1 H1].
    destruct (IH _ _ _ H1) as [groups' H']. exists groups'.
    now rewrite <- app_assoc in H'.
Qed.

End SentenceGroups.

(** X7: when no sentence exceeds the budget by itself, no sentence is cut:
    the segments are the joins of consecutive groups of whole sentences.
    The groups are non-empty, each within the budget by the sum of its
    sentences, they make up the list of sentences in order, and each was
    closed only because the sentence after it did not fit. *)
Theorem sentences_kept_whole (self : Extractor) (text : str) :
  Forall (fun s => (tokens_of self s <= safe_length self)%Z)
         (sent_tokenize self text) ->
  exists groups,
    concat groups = sent_tokenize self text
    /\ Forall (group_ok self) groups
    /\ greedy self groups
    /\ segment_document self text = map (join [SPACE]) groups.
Proof.
  intros H.
  destruct (sent_tokenize self text) as [|s0 ss0] eqn:Ess.
  { exists []. unfold segment_document. rewrite Ess. simpl. auto. }
  rewrite <- Ess in *.
  destruct (@sentence_loop_groups self (sent_tokenize self text) []
              (mkSentenceLoop [] [] 0%Z) [] H) as [groups Hinv].
  { constructor; simpl; auto. rewrite Ess in H.
    inversion H as [|? ? Hs _]; subst. unfold tokens_of in Hs. lia. }
  unfold segment_document. simpl in Hinv.
  destruct Hinv as [Hall Hok Hseg Hlen Hb Hfirst Hg].
  destruct (current_segment
              (fold_left (sentence_step self) (sent_tokenize self text)
                 (mkSentenceLoop [] [] 0%Z))) as [|s cur] eqn:Ec.
  - exists []. rewrite (Hfirst eq_refl) in Hall, Hseg. simpl in *.
    rewrite Hseg. auto.
  - exists (groups ++ [s :: cur]). simpl flush.
    rewrite concat_app, map_app, Hseg. simpl. rewrite app_nil_r.
    repeat split; auto.
    apply Forall_app. split; [exact Hok|]. constructor; [|constructor].
    split; [discriminate | lia].
Qed.

Lemma sentences_kept_whole_witness :
  exists groups,
    concat groups
    = sent_tokenize words_extractor (u "Hi there. Yo. Sup. Bye now.")
    /\ Forall (group_ok words_extractor) groups
    /\ greedy words_extractor groups
    /\ segment_document words_extractor (u "Hi there. Yo. Sup. Bye now.")
       = map (join [SPACE]) groups.
Proof.
  apply sentences_kept_whole. vm_compute.
  repeat (constructor; [discriminate|]). constructor.
Defined.

(** X8: with a sub-additive tokenizer for which a trailing space never
    lowers the count, every segment the segmenter gives,
    except a single word that exceeds the budget, passes the length test
    of [process_segment]: the inference capability is called for it, once,
    with that segment. *)
Theorem segments_reach_inference (self : Extractor)
  (text s src_lang : str) :
  subadditive self -> trailing_space_monotone self ->
  In s (segment_document self text) ->
  snd (process_segment self s src_lang) = [(s, src_lang)]
  \/ (is_word s /\ process_segment self s src_lang = (Returned [], [])).
Proof.
  intros Hsub Hmono Hin.
  pose proof (segment_document_within_budget Hsub Hmono text) as H.
  rewrite Forall_forall in H. destruct (H s Hin) as [Hle | [Hw Hgt]].
  - left. now apply process_segment_calls_within.
  - right. split; [exact Hw|].
    unfold process_segment, process_segment_body.
    replace (tokens_of self s >? safe_length self)%Z with true
      by (symmetry; apply Z.gtb_lt; lia).
    reflexivity.
Qed.

Lemma segments_reach_inference_witness :
  snd (process_segment words_extractor (u "Hi there") (u "en_XX"))
  = [(u "Hi there", u "en_XX")]
  \/ (is_word (u "Hi there")
      /\ process_segment words_extractor (u "Hi there") (u "en_XX")
         = (Returned [], [])).
Proof.
  apply (@segments_reach_inference words_extractor
           (u "Hi there all. Yo. A b c d e f. G.")).
  - exact words_extractor_subadditive.
  - exact words_extractor_monotone.
  - vm_compute. now left.
Defined.

(** ** Language detection *)

Section LangFacts.

Import Lang.

Variable lower : str -> str.
Variable detect : str -> outcome str.

Lemma lookup_In (key v : str) (d : list (str * str)) :
  lookup key d = Some v -> In (key, v) d.
Proof.
  induction d as [|[k w] d IH]; simpl; [discriminate|].
  destruct (eqb key k) eqn:E.
  - intros H. inversion H; subst. apply eqb_eq in E. subst. now left.
  - intros H. right. now apply IH.
Qed.

Lemma In_lookup (key : str) (d : list (str * str)) :
  In key (map fst d) -> exists v, lookup key d = Some v.
Proof.
  induction d as [|[k w] d IH]; simpl; [contradiction|].
  intros [-> | H].
  - rewrite eqb_refl. eauto.
  - destruct (eqb key k); eauto.
Qed.

(** Every language the mapping leads to is a supported one. *)
Lemma mapping_supported (base : str) :
  In base (map snd lang_mapping) ->
  exists code, lookup base supported_languages = Some code.
Proof.
  assert (H : forallb (fun b => match lookup b supported_languages with
                                | Some _ => true
                                | None => false
                                end) (map snd lang_mapping) = true)
    by reflexivity.
  rewrite forallb_forall in H. intros Hin. specialize (H base Hin).
  destruct (lookup base supported_languages); [eauto | discriminate].
Qed.

(** No key of the supported languages holds a dash. *)
Lemma supported_before_dash (k code region : str) :
  lookup k supported_languages = Some code ->
  before_dash k = k /\ before_dash (k ++ ch "-" :: region) = k.
Proof.
  intros H. apply lookup_In in H.
  assert (Hd : Forall (fun c => (c =? ch "-")%N = false) k).
  { assert (Hall : forallb (fun key => forallb (fun c => negb (c =? ch "-")%N)
                                                key)
                           (map fst supported_languages) = true)
      by reflexivity.
    rewrite forallb_forall in Hall.
    specialize (Hall k (in_map fst _ _ H)). rewrite forallb_forall in Hall.
    apply Forall_forall. intros c Hc. specialize (Hall c Hc).
    now destruct (c =? ch "-")%N. }
  clear H. induction Hd as [|c k Hc _ [IH1 IH2]].
  - split; reflexivity.
  - cbn [before_dash app]. rewrite Hc, IH1, IH2. auto.
Qed.

End LangFacts.

(** X9: whatever the text, whatever the detector answers or raises, and
    whatever [str.lower] makes of the answer, [detect_language] returns
    one of the seventeen model codes of [supported_languages]. *)
Theorem detect_language_supported (lower : str -> str)
  (detect : str -> outcome str) (text : str) :
  In (Lang.detect_language lower detect text)
     (map snd Lang.supported_languages).
Proof.
  assert (Hen : In Lang.EN_XX (map snd Lang.supported_languages))
    by (do 3 right; left; reflexivity).
  unfold Lang.detect_language.
  destruct (detect (firstn 1000 text)) as [d|]; [|exact Hen].
  match goal with
  | |- In match Lang.lookup ?k _ with _ => _ end _ =>
      destruct (Lang.lookup k Lang.supported_languages) as [code|] eqn:E
  end; [|exact Hen].
  apply lookup_In in E. exact (in_map snd _ _ E).
Qed.

(** X10: when the lower-cased answer of the detector is a key of
    [lang_mapping], the result is the model code of the language the
    mapping gives; no entry of the mapping falls back to English for not
    being supported. *)
Theorem detect_language_mapped (lower : str -> str)
  (detect : str -> outcome str) (text detected : str) :
  detect (firstn 1000 text) = Returned detected ->
  In (lower detected) (map fst Lang.lang_mapping) ->
  exists base code,
    Lang.lookup (lower detected) Lang.lang_mapping = Some base
    /\ Lang.lookup base Lang.supported_languages = Some code
    /\ Lang.detect_language lower detect text = code.
Proof.
  intros Hd Hin. destruct (In_lookup _ _ Hin) as [base Hb].
  destruct (@mapping_supported base) as [code Hc].
  { apply lookup_In in Hb. exact (in_map snd _ _ Hb). }
  exists base, code. repeat split; auto.
  unfold Lang.detect_language. now rewrite Hd, Hb, Hc.
Qed.

Lemma detect_language_mapped_witness :
  exists base code,
    Lang.lookup (Lang.ascii_lower (u "ZH-TW")) Lang.lang_mapping = Some base
    /\ Lang.lookup base Lang.supported_languages = Some code
    /\ Lang.detect_language Lang.ascii_lower (fun _ => Returned (u "ZH-TW"))
                            (u "some text")
       = code.
Proof.
  apply (@detect_language_mapped Lang.ascii_lower
           (fun _ => Returned (u "ZH-TW")) (u "some text") (u "ZH-TW")).
  - reflexivity.
  - vm_compute. do 1 right. left. reflexivity.
Defined.

(** X11: when the lower-cased answer of the detector is not a key of
    [lang_mapping] and the answer is a supported language code, alone or
    followed by a dash and any region, the result is the model code of
    that language. *)
Theorem detect_language_region (lower : str -> str)
  (detect : str -> outcome str) (text detected k code region : str) :
  detect (firstn 1000 text) = Returned detected ->
  Lang.lookup (lower detected) Lang.lang_mapping = None ->
  Lang.lookup k Lang.supported_languages = Some code ->
  detected = k \/ detected = k ++ ch "-" :: region ->
  Lang.detect_language lower detect text = code.
Proof.
  intros Hd Hm Hk Hform.
  destruct (@supported_before_dash k code region Hk) as [E1 E2].
  unfold Lang.detect_language. rewrite Hd, Hm.
  destruct Hform as [-> | ->]; rewrite ?E1, ?E2; now rewrite Hk.
Qed.

Lemma detect_language_region_witness :
  Lang.detect_language Lang.ascii_lower (fun _ => Returned (u "de-LU"))
                       (u "Guten Tag")
  = u "de_DE".
Proof.
  apply (@detect_language_region Lang.ascii_lower
           (fun _ => Returned (u "de-LU")) (u "Guten Tag") (u "de-LU")
           (u "de") (u "de_DE") (u "LU")).
  - reflexivity.
  - reflexivity.
  - reflexivity.
  - right. reflexivity.
Defined.

(** ** The pipeline under any schedule *)

Lemma run_preserves (self : Extractor) (P : State -> Prop) :
  (forall l st st', P st -> step self l st = Some st' -> P st') ->
  forall schedule st st',
    P st -> run self schedule st = Some st' -> P st'.
Proof.
  intros Hstep schedule.
  induction schedule as [|l schedule IH]; intros st st' HP Hrun;
    simpl in Hrun.
  - now inversion Hrun; subst.
  - destruct (step self l st) as [st1|] eqn:E; [|discriminate].
    eauto.
Qed.

Lemma run_app (self : Extractor) (s1 s2 : list Label) (st st1 st2 : State) :
  run self s1 st = Some st1 -> run self s2 st1 = Some st2 ->
  run self (s1 ++ s2) st = Some st2.
Proof.
  revert st. induction s1 as [|l s1 IH]; intros st H1 H2; simpl in *.
  - now inversion H1; subst.
  - destruct (step self l st); [eauto | discriminate].
Qed.

Section CallInvariant.

Variable self : Extractor.

Lemma process_segment_sound (item : WorkItem) (ts : list Triplet) :
  fst (process_segment self (wi_segment item) (wi_src_lang item))
  = Returned ts ->
  Forall sound ts.
Proof.
  intros E.
  destruct (process_segment_complete self (wi_segment item)
              (wi_src_lang item)) as [ts' [E' [H1 H2]]].
  rewrite E in E'. inversion E'; subst.
  rewrite Forall_forall in *. split; auto.
Qed.

Lemma after_batch_bound (batch : list WorkItem) :
  (Z.of_nat (length batch) <= Z.max 0 (batch_size self))%Z ->
  batch_bound self (after_batch batch).
Proof. destruct batch; simpl; auto. Qed.

Lemma worker_step_call_inv (st st' : State) :
  call_inv self st -> worker_step self st = Some st' -> call_inv self st'.
Proof.
  intros [Hq Hb Hs [Ho [Hc Hy]]] Hstep. unfold worker_step in Hstep.
  destruct st as [inq outq stop w m y]; simpl in *.
  destruct w as [| | |batch|batch| |rest ids|ids|]; try discriminate;
    simpl in Hb.
  - stepped Hstep. constructor; simpl; auto. destruct stop; simpl; auto. lia.
  - stepped Hstep. constructor; simpl; auto. destruct inq; simpl; auto. lia.
  - stepped Hstep. constructor; simpl; auto.
    destruct (Z.of_nat (length batch) <? batch_size self)%Z eqn:E.
    + destruct inq; [now apply after_batch_bound|].
      simpl. now apply Z.ltb_lt.
    + now apply after_batch_bound.
  - destruct inq as [|item inq]; stepped Hstep; constructor; simpl; auto.
    + apply after_batch_bound. lia.
    + intros Hpos. specialize (Hq Hpos). simpl in Hq. lia.
    + rewrite length_app. simpl. lia.
  - stepped Hstep. constructor; simpl; auto. destruct stop; simpl; auto.
  - destruct rest as [|item rest]; [stepped Hstep; now constructor|].
    destruct (fst (process_segment self (wi_segment item)
                                   (wi_src_lang item))) as [ts|] eqn:E;
      stepped Hstep; constructor; simpl; auto.
    + simpl in Hb. lia.
    + rewrite flat_map_app. simpl. rewrite app_nil_r.
      repeat split; auto. apply Forall_app. split; [exact Ho|].
      now apply (process_segment_sound item).
  - destruct ids; stepped Hstep; constructor; simpl; auto.
    rewrite flat_map_app. simpl. now rewrite app_nil_r.
Qed.

Lemma queue_full_false (q : list WorkItem) (item : WorkItem) :
  queue_full self q = false -> (0 < queue_size self)%Z ->
  (Z.of_nat (length (q ++ [item])) <= queue_size self)%Z.
Proof.
  unfold queue_full. intros H Hpos. rewrite length_app. simpl.
  apply andb_false_iff in H. destruct H as [H | H].
  - apply Z.ltb_ge in H. lia.
  - apply Z.leb_gt in H. lia.
Qed.

(** The stop event is set exactly from the [finally] block on. *)
Ltac stop_iff Hs :=
  match goal with
  | |- _ <-> _ =>
      split;
      [ let H := fresh in
        intros H; try discriminate H; apply Hs in H; destruct H;
        discriminate
      | let H := fresh in intros [H | H]; discriminate ]
  end.

Lemma main_step_call_inv (st st' : State) :
  call_inv self st -> main_step self st = Some st' -> call_inv self st'.
Proof.
  intros [Hq Hb Hs [Ho [Hc Hy]]] Hstep. unfold main_step in Hstep.
  destruct st as [inq outq stop w m y]; simpl in *.
  destruct m as [ds|ds|c its ds|c a k ds|c a k ds| | |];
    try discriminate.
  - destruct w; stepped Hstep; constructor; simpl; auto;
      try stop_iff Hs.
  - destruct ds as [|d ds]; [|destruct (negb (truthy (strip (d_text d))))];
      stepped Hstep; constructor; simpl; auto; try stop_iff Hs.
  - destruct its as [|item its];
      [|destruct (queue_full self inq) eqn:Ef; [discriminate|]];
      stepped Hstep; constructor; simpl; auto; try stop_iff Hs.
    now apply queue_full_false.
  - destruct (k <? c_num_segments c); [destruct outq as [|r outq]|];
      stepped Hstep; constructor; simpl; auto; try stop_iff Hs.
    + simpl in Ho. apply Forall_app in Ho. destruct Ho as [Ho1 Ho2].
      repeat split; auto.
      destruct (eqb (sr_doc_id r) (c_doc_id c)); simpl; auto.
      apply Forall_app. now split.
    + repeat split; auto. rewrite flat_map_app. simpl.
      rewrite app_nil_r. apply Forall_app. now split.
  - stepped Hstep. constructor; simpl; auto. stop_iff Hs.
  - stepped Hstep. constructor; simpl; auto. split; auto.
  - assert (E : stop = true) by (apply Hs; now left).
    destruct w; try discriminate; stepped Hstep; constructor; simpl; auto;
      split; auto.
Qed.

Lemma step_call_inv (l : Label) (st st' : State) :
  call_inv self st -> step self l st = Some st' -> call_inv self st'.
Proof.
  intros Hinv Hstep. destruct l; simpl in Hstep.
  - eapply worker_step_call_inv; eassumption.
  - eapply main_step_call_inv; eassumption.
  - unfold cancel_step in Hstep. destruct Hinv as [Hq Hb Hs [Ho [Hc Hy]]].
    destruct st as [inq outq stop w m y]; simpl in *.
    destruct m; try discriminate. stepped Hstep.
    constructor; simpl; auto. stop_iff Hs.
Qed.

Lemma initial_call_inv (docs : list Document) :
  call_inv self (initial docs).
Proof.
  constructor; simpl; auto; [lia|].
  split; [discriminate | intros [H | H]; discriminate].
Qed.

Lemma run_call_inv (docs : list Document) (schedule : list Label)
  (st : State) :
  run self schedule (initial docs) = Some st -> call_inv self st.
Proof.
  intros Hrun.
  eapply (@run_preserves self (call_inv self));
    [ intros l s s'; apply step_call_inv
    | apply initial_call_inv
    | exact Hrun ].
Qed.

End CallInvariant.

Section AnySchedule.

Variable self : Extractor.

(** A step of the worker leaves the main thread, the stop event and what
    was yielded as they are, and takes at most one item from the input
    queue. *)
Lemma worker_step_takes (st st' : State) :
  worker_step self st = Some st' ->
  main st' = main st /\ yielded st' = yielded st
  /\ stop_event st' = stop_event st
  /\ exists taken,
       input_queue st = taken ++ input_queue st' /\ length taken <= 1.
Proof.
  intros Hstep. unfold worker_step in Hstep.
  destruct st as [inq outq stop w m y]; simpl in *.
  destruct w as [| | |batch|batch| |rest ids|ids|]; try discriminate;
    try (stepped Hstep; repeat split; auto; exists []; simpl; auto; fail).
  - destruct inq as [|item inq]; stepped Hstep; repeat split; auto.
    + exists []. simpl. auto.
    + exists [item]. simpl. auto.
  - destruct rest as [|item rest]; [|destruct (fst _)]; stepped Hstep;
      repeat split; auto; exists []; simpl; auto.
  - destruct ids; stepped Hstep; repeat split; auto; exists []; simpl; auto.
Qed.

Lemma main_step_leaving (st st' : State) :
  leaving (main st) -> main_step self st = Some st' ->
  leaving (main st') /\ yielded st' = yielded st
  /\ input_queue st' = input_queue st
  /\ (stop_event st = true -> stop_event st' = true).
Proof.
  intros Hl Hstep. unfold main_step in Hstep.
  destruct st as [inq outq stop w m y]; simpl in *.
  destruct m; try contradiction; try discriminate.
  - stepped Hstep. auto.
  - destruct w; try discriminate; stepped Hstep; auto.
Qed.

Variable docs : list Document.

(** The call is in its course, or it is leaving with a beginning of the
    expected results. *)
Lemma step_prefix (l : Label) (st st' : State) :
  pipeline_inv self docs st
  \/ (leaving (main st)
      /\ exists later, yielded st ++ later = expected self docs) ->
  step self l st = Some st' ->
  pipeline_inv self docs st'
  \/ (leaving (main st')
      /\ exists later, yielded st' ++ later = expected self docs).
Proof.
  intros [Hinv | [Hl [later Hy]]] Hstep.
  - destruct l; simpl in Hstep.
    + left. eapply worker_step_inv; eassumption.
    + left. eapply main_step_inv; eassumption.
    + right. destruct Hinv as [_ _ Hr]. unfold cancel_step in Hstep.
      destruct st as [inq outq stop w m y]; simpl in *.
      destruct m; try discriminate. stepped Hstep. split; [exact I|].
      eexists. exact Hr.
  - right. destruct l; simpl in Hstep.
    + destruct (worker_step_takes _ Hstep) as [Hm [Hy' _]].
      rewrite Hm, Hy'. eauto.
    + destruct (main_step_leaving _ Hl Hstep) as [Hl' [Hy' _]].
      rewrite Hy'. eauto.
    + unfold cancel_step in Hstep. destruct (main st); try contradiction;
        discriminate.
Qed.

End AnySchedule.

(** X12: backpressure.  Under every schedule, cancelled or not, the input
    queue never holds more than [queue_size] work items, when
    [queue_size] is positive. *)
Theorem input_queue_bounded (self : Extractor) (docs : list Document)
  (schedule : list Label) (st : State) :
  run self schedule (initial docs) = Some st ->
  (0 < queue_size self)%Z ->
  (Z.of_nat (length (input_queue st)) <= queue_size self)%Z.
Proof. intros Hrun. apply (run_call_inv _ _ _ Hrun). Qed.

Lemma input_queue_bounded_witness :
  exists st,
    run fixed_extractor cancelled_schedule (initial [docA; docB; docC])
    = Some st
    /\ (Z.of_nat (length (input_queue st)) <= queue_size fixed_extractor)%Z.
Proof.
  eexists. split; [vm_compute; reflexivity|].
  apply (@input_queue_bounded fixed_extractor [docA; docB; docC]
           cancelled_schedule).
  - vm_compute. reflexivity.
  - reflexivity.
Defined.

(** X13: under every schedule, the worker never holds more than
    [batch_size] work items taken from the input queue and not yet
    answered (none when [batch_size] is zero or less). *)
Theorem batch_bounded (self : Extractor) (docs : list Document)
  (schedule : list Label) (st : State) :
  run self schedule (initial docs) = Some st ->
  (Z.of_nat (length (worker_items (worker st)))
   <= Z.max 0 (batch_size self))%Z.
Proof.
  intros Hrun. destruct (run_call_inv _ _ _ Hrun) as [_ Hb _ _].
  destruct (worker st); simpl in *; lia.
Qed.

Lemma batch_bounded_witness :
  exists st,
    run fixed_extractor cancelled_schedule (initial [docA; docB; docC])
    = Some st
    /\ (Z.of_nat (length (worker_items (worker st)))
        <= Z.max 0 (batch_size fixed_extractor))%Z.
Proof.
  eexists. split; [vm_compute; reflexivity|].
  apply (@batch_bounded fixed_extractor [docA; docB; docC]
           cancelled_schedule).
  vm_compute. reflexivity.
Defined.

(** X14: once the stop event is set it stays set, nothing more is yielded
    and nothing is put in the input queue: a step can only take an item
    from its front. *)
Theorem nothing_submitted_after_stop (self : Extractor)
  (docs : list Document) (schedule : list Label) (st st' : State)
  (l : Label) :
  run self schedule (initial docs) = Some st ->
  stop_event st = true ->
  step self l st = Some st' ->
  stop_event st' = true /\ yielded st' = yielded st
  /\ exists taken,
       input_queue st = taken ++ input_queue st' /\ length taken <= 1.
Proof.
  intros Hrun Hstop Hstep.
  destruct (run_call_inv _ _ _ Hrun) as [_ _ Hs _].
  assert (Hl : leaving (main st)).
  { apply Hs in Hstop. destruct Hstop as [-> | ->]; exact I. }
  destruct l; simpl in Hstep.
  - destruct (worker_step_takes _ _ Hstep) as [_ [Hy [Hst Ht]]].
    rewrite Hst. auto.
  - destruct (main_step_leaving _ _ Hl Hstep) as [_ [Hy [Hq Hst]]].
    repeat split; auto. exists []. rewrite Hq. simpl. auto.
  - unfold cancel_step in Hstep. destruct (main st); try contradiction;
      discriminate.
Qed.

Lemma nothing_submitted_after_stop_witness :
  exists st st',
    run fixed_extractor cancelled_schedule (initial [docA; docB; docC])
    = Some st
    /\ step fixed_extractor Worker st = Some st'
    /\ stop_event st' = true /\ yielded st' = yielded st
    /\ exists taken,
         input_queue st = taken ++ input_queue st' /\ length taken <= 1.
Proof.
  eexists. eexists. split; [vm_compute; reflexivity|].
  split; [vm_compute; reflexivity|].
  apply (@nothing_submitted_after_stop fixed_extractor [docA; docB; docC]
           cancelled_schedule _ _ Worker).
  - vm_compute. reflexivity.
  - reflexivity.
  - vm_compute. reflexivity.
Defined.

(** X15: under every schedule, every triplet of every result the call has
    yielded has its five fields non-empty, its head, relation and tail in
    normal form and no whitespace in its types. *)
Theorem yielded_triplets_sound (self : Extractor) (docs : list Document)
  (schedule : list Label) (st : State) (r : DocumentResult) (t : Triplet) :
  run self schedule (initial docs) = Some st ->
  In r (yielded st) -> In t (dr_triplets r) ->
  complete t /\ triplet_normal t.
Proof.
  intros Hrun Hr Ht.
  destruct (run_call_inv _ _ _ Hrun) as [_ _ _ [_ [_ Hy]]].
  rewrite Forall_forall in Hy. apply Hy.
  apply in_flat_map. eauto.
Qed.

Lemma yielded_triplets_sound_witness :
  complete apple /\ triplet_normal apple.
Proof.
  apply (@yielded_triplets_sound fixed_extractor [docA; docB; docC]
           full_schedule
           (mkState [] [] true WExit MDone
              (expected fixed_extractor [docA; docB; docC]))
           (expected_result fixed_extractor docC) apple).
  - vm_compute. reflexivity.
  - vm_compute. right. left. reflexivity.
  - vm_compute. left. reflexivity.
Defined.

(** X16: under every schedule, cancelled or not, what the call has
    yielded is a beginning of the list of the expected results: one
    result for each document with text, in the order of the stream, with
    the triplets of its segments in the order of the segments. *)
Theorem yielded_prefix_any_schedule (self : Extractor)
  (docs : list Document) (schedule : list Label) (st : State) :
  run self schedule (initial docs) = Some st ->
  exists later, yielded st ++ later = expected self docs.
Proof.
  intros Hrun.
  assert (H : pipeline_inv self docs st
              \/ (leaving (main st)
                  /\ exists later,
                       yielded st ++ later = expected self docs)).
  { eapply (@run_preserves self
              (fun s => pipeline_inv self docs s
                        \/ (leaving (main s)
                            /\ exists later,
                                 yielded s ++ later = expected self docs)));
      [ intros l s s'; apply step_prefix
      | left; apply initial_inv
      | exact Hrun ]. }
  destruct H as [[_ _ Hr] | [_ H]]; [|exact H].
  eexists. exact Hr.
Qed.

Lemma yielded_prefix_any_schedule_witness :
  exists st,
    run fixed_extractor (firstn 30 full_schedule)
        (initial [docA; docB; docC])
    = Some st
    /\ exists later,
         yielded st ++ later = expected fixed_extractor [docA; docB; docC].
Proof.
  eexists. split; [vm_compute; reflexivity|].
  apply (@yielded_prefix_any_schedule fixed_extractor [docA; docB; docC]
           (firstn 30 full_schedule)).
  vm_compute. reflexivity.
Defined.

Section Drain.

Variable self : Extractor.
Hypothesis Hbatch : (0 < batch_size self)%Z.

Lemma after_batch_drains (batch q : list WorkItem) :
  (batch = [] -> q = []) -> drains (after_batch batch) q.
Proof. destruct batch; simpl; auto. Qed.

Lemma worker_step_drain (target : list SegmentResult) (st st' : State) :
  drain_inv self target st -> worker_step self st = Some st' ->
  drain_inv self target st'.
Proof.
  intros [Hs Hm Hw Hr] Hstep. unfold worker_step in Hstep.
  destruct st as [inq outq stop w m y]; simpl in *. subst stop target.
  destruct w as [| | |batch|batch| |rest ids|ids|]; try discriminate;
    try contradiction.
  - stepped Hstep. now constructor.
  - stepped Hstep. destruct inq; now constructor.
  - stepped Hstep.
    destruct (Z.of_nat (length batch) <? batch_size self)%Z eqn:E.
    + destruct inq as [|item inq]; [|now constructor].
      constructor; simpl; auto; [now apply after_batch_drains|].
      now rewrite after_batch_items.
    + apply Z.ltb_ge in E.
      constructor; simpl; auto.
      * apply after_batch_drains. intros ->. simpl in E. lia.
      * now rewrite after_batch_items.
  - destruct inq as [|item inq]; stepped Hstep; constructor; simpl; auto.
    + now apply after_batch_drains.
    + now rewrite after_batch_items.
    + rewrite <- !app_assoc. reflexivity.
  - stepped Hstep. now constructor.
  - destruct rest as [|item rest]; [stepped Hstep; now constructor|].
    destruct (fst (process_segment self (wi_segment item)
                                   (wi_src_lang item))) as [ts|] eqn:E.
    + stepped Hstep. constructor; simpl; auto.
      rewrite <- app_assoc. simpl. unfold result_for.
      now rewrite (item_triplets_returned _ _ E).
    + now apply process_segment_not_raised in E.
Qed.

Lemma step_drain (target : list SegmentResult) (l : Label)
  (st st' : State) :
  drain_inv self target st -> step self l st = Some st' ->
  drain_inv self target st'.
Proof.
  intros Hinv Hstep. destruct l; simpl in Hstep.
  - eapply worker_step_drain; eassumption.
  - destruct Hinv as [Hs Hm Hw Hr]. unfold main_step in Hstep.
    destruct st as [inq outq stop w m y]; simpl in *.
    destruct Hm as [-> | ->]; [|discriminate].
    destruct w; try discriminate; stepped Hstep; constructor; simpl; auto.
  - destruct Hinv as [Hs Hm Hw Hr]. unfold cancel_step in Hstep.
    destruct Hm as [Hm | Hm]; rewrite Hm in Hstep; discriminate.
Qed.

End Drain.

(** X17: graceful drain.  With a positive batch size, when the stop event
    is set and the main thread waits in [join] while the worker is
    anywhere in its loop except on line 102 with items in the input
    queue, then under every schedule the worker leaves its loop only with
    the input queue empty, and by then the output queue has received, in
    order, one result for each item the worker held and each item that
    was in the input queue. *)
Theorem graceful_drain (self : Extractor) (schedule : list Label)
  (st st' : State) :
  (0 < batch_size self)%Z ->
  stop_event st = true -> main st = MJoin ->
  drains (worker st) (input_queue st) ->
  run self schedule st = Some st' ->
  worker st' = WExit ->
  input_queue st' = []
  /\ output_queue st'
     = output_queue st
       ++ map (result_for self)
              (worker_items (worker st) ++ input_queue st).
Proof.
  intros Hbatch Hs Hm Hw Hrun Hexit.
  assert (H : drain_inv self
                (output_queue st
                 ++ map (result_for self)
                        (worker_items (worker st) ++ input_queue st)) st').
  { eapply (@run_preserves self (drain_inv self _));
      [ intros l s s'; apply (step_drain Hbatch)
      | constructor; [exact Hs | now left | exact Hw | reflexivity]
      | exact Hrun ]. }
  destruct H as [_ _ Hw' Hr]. rewrite Hexit in Hw', Hr. simpl in *.
  rewrite Hw' in Hr. simpl in Hr. rewrite app_nil_r in Hr. auto.
Qed.

Lemma graceful_drain_witness :
  exists st',
    run fixed_extractor
        [Worker; Worker; Worker; Worker; Worker; Worker; Worker; Worker;
         Worker; Worker; Worker; Worker; Worker; Worker; Worker]
        (mkState (work_items fixed_extractor docA) [] true WHead MJoin [])
    = Some st'
    /\ input_queue st' = []
    /\ output_queue st'
       = map (result_for fixed_extractor) (work_items fixed_extractor docA).
Proof.
  eexists. split; [vm_compute; reflexivity|].
  apply (@graceful_drain fixed_extractor
           [Worker; Worker; Worker; Worker; Worker; Worker; Worker; Worker;
            Worker; Worker; Worker; Worker; Worker; Worker; Worker]
           (mkState (work_items fixed_extractor docA) [] true WHead MJoin
                    [])).
  - reflexivity.
  - reflexivity.
  - reflexivity.
  - exact I.
  - vm_compute. reflexivity.
  - reflexivity.
Defined.

Section LeavingProgress.

Variable self : Extractor.

Lemma leaving_progress (st : State) :
  call_inv self st -> leaving (main st) -> main st <> MDone ->
  exists st',
    step self (leaving_label st) st = Some st'
    /\ leaving (main st') /\ leaving_cost st' < leaving_cost st.
Proof.
  intros [_ _ Hs _] Hl Hne. unfold leaving_label, leaving_cost.
  destruct st as [inq outq stop w m y]; simpl in *.
  destruct m; try contradiction; try congruence.
  - (* MFinally *)
    eexists. split; [reflexivity|]. simpl. split; [exact I | lia].
  - (* MJoin *)
    assert (E : stop = true) by (apply Hs; now left). subst stop.
    unfold worker_step.
    destruct w as [| | |batch|batch| |rest ids|ids|]; simpl;
      try (eexists; split; [reflexivity|]; simpl; split; [exact I | lia]).
    + destruct inq; eexists; (split; [reflexivity|]); simpl;
        (split; [exact I | lia]).
    + eexists. split; [reflexivity|]. simpl. split; [exact I|].
      destruct (_ <? _)%Z; [destruct inq|]; destruct batch; simpl; lia.
    + destruct inq; eexists; (split; [reflexivity|]); simpl;
        (split; [exact I|]); [destruct batch; simpl; lia|].
      rewrite length_app. simpl. lia.
    + destruct rest as [|item rest].
      * eexists; split; [reflexivity|]; simpl; split; [exact I | lia].
      * try unfold step; try unfold worker_step; simpl.
        destruct (fst (process_segment self (wi_segment item)
                                       (wi_src_lang item))) as [ts|] eqn:E.
        -- eexists. split; [reflexivity|]. simpl. split; [exact I | lia].
        -- now apply process_segment_not_raised in E.
    + destruct ids; eexists; (split; [reflexivity|]); simpl;
        (split; [exact I | lia]).
Qed.

Lemma leaving_can_finish (n : nat) (st : State) :
  leaving_cost st <= n -> call_inv self st -> leaving (main st) ->
  exists schedule st',
    cancel_free schedule /\ run self schedule st = Some st'
    /\ main st' = MDone.
Proof.
  revert st. induction n as [|n IH]; intros st Hn Hinv Hl.
  - assert (Hd : main st = MDone).
    { destruct (main st) eqn:Em; try contradiction; try reflexivity;
        destruct (leaving_progress Hinv) as [st' [_ [_ H]]];
        rewrite ?Em; try exact I; try discriminate; lia. }
    exists [], st. repeat split; auto. constructor.
  - destruct (main st) eqn:Em; try contradiction.
    + destruct (leaving_progress Hinv) as [st1 [Hstep [Hl1 Hlt]]];
        rewrite ?Em; try exact I; try discriminate.
      destruct (IH st1) as [schedule [st' [Hcf [Hrun Hdone]]]];
        [lia | eapply step_call_inv; eassumption | exact Hl1 |].
      exists (leaving_label st :: schedule), st'. repeat split; auto.
      * constructor; [|exact Hcf]. unfold leaving_label.
        destruct (main st), (worker st); discriminate.
      * simpl. now rewrite Hstep.
    + destruct (leaving_progress Hinv) as [st1 [Hstep [Hl1 Hlt]]];
        rewrite ?Em; try exact I; try discriminate.
      destruct (IH st1) as [schedule [st' [Hcf [Hrun Hdone]]]];
        [lia | eapply step_call_inv; eassumption | exact Hl1 |].
      exists (leaving_label st :: schedule), st'. repeat split; auto.
      * constructor; [|exact Hcf]. unfold leaving_label.
        destruct (main st), (worker st); discriminate.
      * simpl. now rewrite Hstep.
    + exists [], st. repeat split; auto. constructor.
Qed.

End LeavingProgress.

(** X18: leaving always ends.  From every state a call reaches under any
    schedule, once the stream has ended or the call was cancelled, the
    call can be run to its return: the stop event is set, the worker
    leaves its loop and [join] returns, whatever the batch size and
    whatever is left in the queues. *)
Theorem leaving_terminates (self : Extractor) (docs : list Document)
  (schedule : list Label) (st : State) :
  run self schedule (initial docs) = Some st ->
  leaving (main st) ->
  exists schedule' st',
    cancel_free schedule' /\ run self schedule' st = Some st'
    /\ main st' = MDone /\ worker st' = WExit
    /\ yielded st' = yielded st.
Proof.
  intros Hrun Hl.
  destruct (@leaving_can_finish self (leaving_cost st) st (le_n _)
              (run_call_inv _ _ _ Hrun) Hl)
    as [schedule' [st' [Hcf [Hrun' Hdone]]]].
  exists schedule', st'. repeat split; auto.
  - apply (@joined_before_done self docs (schedule ++ schedule'));
      [eapply run_app; eassumption | exact Hdone].
  - clear - Hl Hrun'. revert st Hl Hrun'.
    induction schedule' as [|l s IH]; intros st Hl Hrun'; simpl in Hrun'.
    + now inversion Hrun'; subst.
    + destruct (step self l st) as [st1|] eqn:E; [|discriminate].
      destruct l; simpl in E.
      * destruct (worker_step_takes _ _ E) as [Hm [Hy _]].
        rewrite <- Hy. apply IH; [now rewrite Hm | exact Hrun'].
      * destruct (main_step_leaving _ _ Hl E) as [Hl1 [Hy _]].
        rewrite <- Hy. now apply IH.
      * unfold cancel_step in E. destruct (main st); try contradiction;
          discriminate.
Qed.

Lemma leaving_terminates_witness :
  exists st,
    run fixed_extractor cancelled_schedule (initial [docA; docB; docC])
    = Some st
    /\ exists schedule' st',
         cancel_free schedule' /\ run fixed_extractor schedule' st = Some st'
         /\ main st' = MDone /\ worker st' = WExit
         /\ yielded st' = yielded st.
Proof.
  eexists. split; [vm_compute; reflexivity|].
  apply (@leaving_terminates fixed_extractor [docA; docB; docC]
           cancelled_schedule).
  - vm_compute. reflexivity.
  - exact I.
Defined.

(** X19: the stop event is set in the [finally] block and nowhere else.
    In every state a call reaches under any schedule, the event is set
    exactly when the main thread is at or past [join]: while documents
    are submitted and results collected the worker is never told to
    stop, and the test of line 128 in [_get_result] is false. *)
Theorem stop_event_only_in_finally (self : Extractor)
  (docs : list Document) (schedule : list Label) (st : State) :
  run self schedule (initial docs) = Some st ->
  (stop_event st = true <-> main st = MJoin \/ main st = MDone).
Proof. intros Hrun. exact (call_stop (run_call_inv _ _ _ Hrun)). Qed.

Lemma stop_event_only_in_finally_witness :
  exists st,
    run fixed_extractor cancelled_schedule (initial [docA; docB; docC])
    = Some st
    /\ (stop_event st = true <-> main st = MJoin \/ main st = MDone).
Proof.
  eexists. split; [vm_compute; reflexivity|].
  apply (@stop_event_only_in_finally fixed_extractor [docA; docB; docC]
           cancelled_schedule).
  vm_compute. reflexivity.
Defined.

Lemma step_no_except (self : Extractor) (l : Label) (st st' : State) :
  no_except (worker st) -> step self l st = Some st' ->
  no_except (worker st').
Proof.
  intros Hw Hstep. destruct l; simpl in Hstep.
  - unfold worker_step in Hstep.
    destruct st as [inq outq stop w m y]; simpl in *.
    destruct w as [| | |batch|batch| |rest ids|ids|]; try discriminate;
      try contradiction.
    + stepped Hstep. destruct stop; exact I.
    + stepped Hstep. destruct inq; exact I.
    + stepped Hstep.
      destruct (_ <? _)%Z; [destruct inq|]; simpl;
        try exact I; now destruct batch.
    + destruct inq; stepped Hstep; try exact I. now destruct batch.
    + stepped Hstep. destruct stop; exact I.
    + destruct rest as [|item rest]; [stepped Hstep; exact I|].
      destruct (fst (process_segment self (wi_segment item)
                                     (wi_src_lang item))) as [ts|] eqn:E.
      * stepped Hstep. exact I.
      * now apply process_segment_not_raised in E.
  - unfold main_step in Hstep.
    destruct st as [inq outq stop w m y]; simpl in *.
    destruct m as [ds|ds|ctx items ds|ctx res n ds|ctx res n ds| | |].
    + destruct w; stepped Hstep; auto.
    + destruct ds as [|doc ds]; [stepped Hstep; auto|].
      destruct (negb _); stepped Hstep; auto.
    + destruct items; [stepped Hstep; auto|].
      destruct (queue_full _ _); [discriminate|]. stepped Hstep. auto.
    + destruct (_ <? _); [destruct outq|]; stepped Hstep; auto.
    + stepped Hstep. auto.
    + stepped Hstep. auto.
    + destruct w; try discriminate; stepped Hstep; auto.
    + discriminate.
  - unfold cancel_step in Hstep.
    destruct st as [inq outq stop w m y]; simpl in *.
    destruct m; try discriminate. stepped Hstep. auto.
Qed.

(** X20: the handler of lines 113-119 is never entered.  Because
    [process_segment] catches every exception itself, under any schedule
    the worker never reaches the [except] branch of [_process_queue]: no
    result with an empty triplet list is put in place of a batch. *)
Theorem worker_never_in_except (self : Extractor) (docs : list Document)
  (schedule : list Label) (st : State) (ids : list str) :
  run self schedule (initial docs) = Some st ->
  worker st <> WExcept ids.
Proof.
  intros Hrun Hw.
  assert (H : no_except (worker st)).
  { refine (@run_preserves self (fun s => no_except (worker s)) _
              schedule (initial docs) st I Hrun).
    intros l s s'. apply step_no_except. }
  rewrite Hw in H. exact H.
Qed.

Lemma worker_never_in_except_witness :
  exists st,
    run fixed_extractor cancelled_schedule (initial [docA; docB; docC])
    = Some st
    /\ worker st <> WExcept [].
Proof.
  eexists. split; [vm_compute; reflexivity|].
  apply (@worker_never_in_except fixed_extractor [docA; docB; docC]
           cancelled_schedule).
  vm_compute. reflexivity.
Defined.
